(** * cloudsweeper: the account exporter [accounts_retriever.py]

    The script reads the mapping [BRKT_EMPLOYEE_ACCOUNTS] (account name to
    account identifier), builds one owner dictionary per entry, serialises the
    list with [json.dumps(account_list, indent=4, sort_keys=True)] and writes
    the text to the file named by [--output].

    The script is Python 2 code ([dict.iteritems]); the library calls it makes
    ([json.dumps], [open], [file.write], [file.close], [argparse]) are modelled
    after the Python 2.7 standard library. *)

From Stdlib Require Import ZArith NArith Ascii String DecimalString.
From Stdlib Require DecimalFacts DecimalPos DecimalZ.
From stdpp Require Import base option list sorting strings gmap.

Local Open Scope string_scope.
Local Open Scope list_scope.

(** ** Text *)

(** A text is the sequence of its code points. A Python 2 [str] is identified
    with the text it decodes to, which is what [json] does before escaping. *)
Definition unicode := list N.

(** The text of a literal whose bytes are all ASCII. *)
Fixpoint u (s : string) : unicode :=
  match s with
  | EmptyString => []
  | String c s' => N_of_ascii c :: u s'
  end.

Definition chr (n : N) : string := String (ascii_of_N n) EmptyString.

(** The double quote, the backslash and the newline as one-character strings. *)
Definition dquote : string := chr 34.
Definition bslash : string := chr 92.
Definition newline : string := chr 10.

(** [sep.join(chunks)] *)
Fixpoint join (sep : string) (chunks : list string) : string :=
  match chunks with
  | [] => EmptyString
  | [c] => c
  | c :: cs => c +:+ sep +:+ join sep cs
  end.

(** [' ' * n] *)
Fixpoint spaces (n : nat) : string :=
  match n with
  | O => EmptyString
  | S n' => String " " (spaces n')
  end.

(** ** Python values that the exporter handles *)

(** The values that names and identifiers are taken from: [None], booleans,
    integers and text, each of which [json.dumps] serialises. Floats,
    containers, byte strings that are not UTF-8 and the objects that
    [json.dumps] refuses are not covered. *)
Inductive pyval :=
| PyNone
| PyBool (b : bool)
| PyInt (z : Z)
| PyStr (s : unicode).

Global Instance pyval_eq_dec : EqDecision pyval.
Proof. solve_decision. Defined.

(** A Python dictionary with [str] keys: a finite map, whose own iteration
    order is arbitrary. *)
Abbreviation pydict := (gmap string pyval).

(** ** [json.encoder] (Python 2.7) *)
Module json.

(** The regular expression [ESCAPE_ASCII]: a backslash, a double quote, or
    any character outside the range from space to tilde. *)
Definition ESCAPE_ASCII (c : N) : bool :=
  (c =? 92)%N || (c =? 34)%N || negb ((32 <=? c)%N && (c <=? 126)%N).

Definition hexdigit (d : N) : ascii :=
  match d with
  | 0 => "0" | 1 => "1" | 2 => "2" | 3 => "3" | 4 => "4" | 5 => "5"
  | 6 => "6" | 7 => "7" | 8 => "8" | 9 => "9" | 10 => "a" | 11 => "b"
  | 12 => "c" | 13 => "d" | 14 => "e" | _ => "f"
  end%N%char.

(** ['{0:04x}'.format(n)] for [n < 0x10000] *)
Definition hex4 (n : N) : string :=
  String (hexdigit (N.land (N.shiftr n 12) 15))
    (String (hexdigit (N.land (N.shiftr n 8) 15))
       (String (hexdigit (N.land (N.shiftr n 4) 15))
          (String (hexdigit (N.land n 15)) EmptyString))).

(** The replacement of one matched character: [ESCAPE_DCT], then the
    [\uXXXX] form, with a surrogate pair above the basic plane. *)
Definition replace (c : N) : string :=
  if (c =? 92)%N then bslash +:+ bslash
  else if (c =? 34)%N then bslash +:+ dquote
  else if (c =? 8)%N then bslash +:+ "b"
  else if (c =? 12)%N then bslash +:+ "f"
  else if (c =? 10)%N then bslash +:+ "n"
  else if (c =? 13)%N then bslash +:+ "r"
  else if (c =? 9)%N then bslash +:+ "t"
  else if (c <? 65536)%N then bslash +:+ "u" +:+ hex4 c
  else
    let n := (c - 65536)%N in
    let s1 := N.lor 55296 (N.land (N.shiftr n 10) 1023) in
    let s2 := N.lor 56320 (N.land n 1023) in
    bslash +:+ "u" +:+ hex4 s1 +:+ bslash +:+ "u" +:+ hex4 s2.

Definition escape (c : N) : string :=
  if ESCAPE_ASCII c then replace c else chr c.

Fixpoint escape_all (s : unicode) : string :=
  match s with
  | [] => EmptyString
  | c :: s' => escape c +:+ escape_all s'
  end.

(** [py_encode_basestring_ascii(s)]: the JSON string literal, ASCII only. *)
Definition encode_basestring_ascii (s : unicode) : string :=
  dquote +:+ escape_all s +:+ dquote.

(** Defaults of [JSONEncoder]; Python 2.7 keeps [', '] as item separator
    also when [indent] is given. *)
Definition item_separator : string := ", ".
Definition key_separator : string := ": ".

(** The branch of [_iterencode_dict] / [_iterencode_list] for a scalar. *)
Definition encode_value (v : pyval) : string :=
  match v with
  | PyStr s => encode_basestring_ascii s
  | PyNone => "null"
  | PyBool true => "true"
  | PyBool false => "false"
  | PyInt z => NilZero.string_of_int (Z.to_int z)
  end.

Definition newline_indent (_indent _current_indent_level : nat) : string :=
  newline +:+ spaces (_indent * _current_indent_level).

(** [sorted(dct.items(), key=lambda kv: kv[0])] *)
Definition key_le (kv1 kv2 : string * pyval) : Prop := String.le kv1.1 kv2.1.

Global Instance key_le_dec kv1 kv2 : Decision (key_le kv1 kv2).
Proof. unfold key_le. apply _. Defined.

Definition sorted_items (dct : pydict) : list (string * pyval) :=
  merge_sort key_le (map_to_list dct).

Definition encode_item (kv : string * pyval) : string :=
  encode_basestring_ascii (u kv.1) +:+ key_separator +:+ encode_value kv.2.

(** [_iterencode_dict(dct, _current_indent_level)] with [_sort_keys] set and
    [_indent] given. *)
Definition _iterencode_dict (_indent : nat) (dct : pydict)
    (_current_indent_level : nat) : string :=
  if decide (dct = ∅) then "{}"
  else
    let level := S _current_indent_level in
    let item_sep := item_separator +:+ newline_indent _indent level in
    "{" +:+ newline_indent _indent level
        +:+ join item_sep (encode_item <$> sorted_items dct)
        +:+ newline_indent _indent _current_indent_level +:+ "}".

(** [_iterencode_list(lst, _current_indent_level)] for a list of
    dictionaries, [_indent] given. *)
Definition _iterencode_list (_indent : nat) (lst : list pydict)
    (_current_indent_level : nat) : string :=
  match lst with
  | [] => "[]"
  | _ =>
    let level := S _current_indent_level in
    let separator := item_separator +:+ newline_indent _indent level in
    "[" +:+ newline_indent _indent level
        +:+ join separator ((fun d => _iterencode_dict _indent d level) <$> lst)
        +:+ newline_indent _indent _current_indent_level +:+ "]"
  end.

(** [json.dumps(lst, indent=indent, sort_keys=True)] *)
Definition dumps (lst : list pydict) (indent : nat) : string :=
  _iterencode_list indent lst 0.

End json.

(** ** The exporter: the pure part of [main] *)

(** [owner = {'name': name, 'id': account}] *)
Definition owner (name account : pyval) : pydict :=
  <["name" := name]> (<["id" := account]> ∅).

(** The loop of [main]: one owner per pair that [iteritems()] yields,
    appended in that order. *)
Fixpoint account_list_loop (items : list (pyval * pyval))
    (account_list : list pydict) : list pydict :=
  match items with
  | [] => account_list
  | (name, account) :: rest =>
      account_list_loop rest (account_list ++ [owner name account])
  end.

Definition build_account_list (items : list (pyval * pyval)) : list pydict :=
  account_list_loop items [].

Definition accounts_json (items : list (pyval * pyval)) : string :=
  json.dumps (build_account_list items) 4.

(** ** The operating system, as far as the exporter touches it *)

Inductive errno := ENOENT | EACCES | EISDIR | EROFS | ENOSPC.

Inductive exception :=
| IOError (e : errno)
| ValueError (msg : string)
| OtherError (cls : string).

Global Instance errno_eq_dec : EqDecision errno.
Proof. solve_decision. Defined.
Global Instance exception_eq_dec : EqDecision exception.
Proof. solve_decision. Defined.

Inductive syscall :=
| SysOpen (path : string)
| SysWrite (fd : nat) (data : string)
| SysClose (fd : nat).

(** [files]: the regular files and their contents. [unwritable]: the paths
    that [open(path, 'w')] refuses, with the error it reports. [free_space]:
    the number of bytes the device still takes. [buffer_size]: the size of
    the buffer that the C library gives a file object (the block size of the
    file system, 4096 as a rule). [open_files]: the file objects that were
    opened and not closed yet, with their paths. [buffered]: the data that a
    file object was given and has not passed on to the device yet; a file
    object without an entry has no buffer allocated. [trace]: the calls made
    so far, oldest first. *)
Record world := World {
  files : gmap string string;
  unwritable : gmap string errno;
  free_space : nat;
  buffer_size : nat;
  open_files : gmap nat string;
  buffered : gmap nat string;
  trace : list syscall;
}.

Definition content (w : world) (path : string) : string :=
  default EmptyString (files w !! path).

(** The data in the buffer of a file object. *)
Definition pending (w : world) (fd : nat) : string :=
  default EmptyString (buffered w !! fd).

Inductive result (A : Type) :=
| Return (a : A)
| Raise (e : exception).
Arguments Return {A} a.
Arguments Raise {A} e.

(** A Python statement: it runs in a world and returns or raises. *)
Definition io (A : Type) := world -> result A * world.

Definition io_ret {A} (a : A) : io A := fun w => (Return a, w).
Definition io_raise {A} (e : exception) : io A := fun w => (Raise e, w).
Definition io_bind {A B} (m : io A) (k : A -> io B) : io B :=
  fun w => match m w with
           | (Return a, w') => k a w'
           | (Raise e, w') => (Raise e, w')
           end.

Global Instance io_mret : MRet io := @io_ret.
Global Instance io_mbind : MBind io := fun A B k m => io_bind m k.

(** [open(path, 'w')]: refused paths raise [IOError] and change nothing;
    otherwise the file is created or truncated and a new file object is
    returned, whose buffer is not allocated yet. *)
Definition py_open (path : string) : io nat :=
  fun w =>
    match unwritable w !! path with
    | Some e =>
        (Raise (IOError e),
         World (files w) (unwritable w) (free_space w) (buffer_size w)
               (open_files w) (buffered w) (trace w ++ [SysOpen path]))
    | None =>
        let fd := fresh (dom (open_files w)) in
        (Return fd,
         World (<[path := EmptyString]> (files w)) (unwritable w)
               (free_space w + String.length (content w path))
               (buffer_size w)
               (<[fd := path]> (open_files w)) (delete fd (buffered w))
               (trace w ++ [SysOpen path]))
    end.

(** What the C library does with data that leave the buffer: nothing when
    there are none; otherwise it calls [write(2)] until all of them are
    written or the device is full. The data are appended to the file; on a
    full device only the part that fits is. The result tells whether all
    data were written. *)
Definition sys_write (path data : string) (w : world) : bool * world :=
  if decide (data = EmptyString) then (true, w)
  else if decide (String.length data <= free_space w) then
    (true,
     World (<[path := content w path +:+ data]> (files w)) (unwritable w)
           (free_space w - String.length data) (buffer_size w)
           (open_files w) (buffered w) (trace w))
  else
    (false,
     World (<[path := content w path
                        +:+ String.substring 0 (free_space w) data]> (files w))
           (unwritable w) 0 (buffer_size w)
           (open_files w) (buffered w) (trace w)).

(** The number of bytes out of [n] that [fwrite] writes at once, past the
    buffer: a whole number of blocks. *)
Definition whole_blocks (block_size n : nat) : nat :=
  n - (if decide (128 <= block_size) then n mod block_size else 0).

Definition log (c : syscall) (w : world) : world :=
  World (files w) (unwritable w) (free_space w) (buffer_size w)
        (open_files w) (buffered w) (trace w ++ [c]).

Definition set_buffer (fd : nat) (data : string) (w : world) : world :=
  World (files w) (unwritable w) (free_space w) (buffer_size w)
        (open_files w) (<[fd := data]> (buffered w)) (trace w).

(** [f.write(data)], which is [fwrite] of the C library (glibc): data that
    fit into the buffer are kept there. Otherwise the buffer is filled and
    written out, then a whole number of blocks of the remaining data is
    written, and the rest is kept in the buffer. When the device is full,
    [IOError] is raised and the buffer is left empty. *)
Definition file_write (fd : nat) (data : string) : io unit :=
  fun w =>
    match open_files w !! fd with
    | None => (Raise (ValueError "I/O operation on closed file"), w)
    | Some path =>
        let c := SysWrite fd data in
        let available :=
          match buffered w !! fd with
          | Some buffer => buffer_size w - String.length buffer
          | None => 0
          end in
        if decide (data = EmptyString) then (Return tt, log c w)
        else if decide (String.length data <= available) then
          (Return tt, log c (set_buffer fd (pending w fd +:+ data) w))
        else
          let to_do := String.length data - available in
          let rest := String.substring available to_do data in
          match sys_write path
                  (pending w fd +:+ String.substring 0 available data) w with
          | (false, w1) =>
              (Raise (IOError ENOSPC), log c (set_buffer fd EmptyString w1))
          | (true, w1) =>
              let do_write := whole_blocks (buffer_size w) to_do in
              match sys_write path (String.substring 0 do_write rest) w1 with
              | (false, w2) =>
                  (Raise (IOError ENOSPC), log c (set_buffer fd EmptyString w2))
              | (true, w2) =>
                  (Return tt,
                   log c (set_buffer fd
                            (String.substring do_write (to_do - do_write) rest)
                            w2))
              end
          end
    end.

(** [f.close()], which is [fclose]: the buffer is written out and the file
    object is released, also when writing out fails, in which case [IOError]
    is raised. Closing twice is allowed. *)
Definition file_close (fd : nat) : io unit :=
  fun w =>
    match open_files w !! fd with
    | None => (Return tt, log (SysClose fd) w)
    | Some path =>
        let '(written, w1) := sys_write path (pending w fd) w in
        (if written then Return tt else Raise (IOError ENOSPC),
         World (files w1) (unwritable w1) (free_space w1) (buffer_size w1)
               (delete fd (open_files w1)) (delete fd (buffered w1))
               (trace w1 ++ [SysClose fd]))
    end.

(** ** The account mapping *)

(** [BRKT_EMPLOYEE_ACCOUNTS] is defined outside this repository. What [main]
    uses of it is the sequence of pairs that [iteritems()] yields; an object
    that is not a proper mapping makes the iteration raise, possibly after
    some pairs. *)
Inductive mapping :=
| Dict (items : list (pyval * pyval))
| Faulty (yielded : list (pyval * pyval)) (e : exception).

(** The [for] loop of [main] over the mapping. *)
Definition collect (m : mapping) : io (list pydict) :=
  match m with
  | Dict items => io_ret (build_account_list items)
  | Faulty yielded e =>
      let account_list := build_account_list yielded in io_raise e
  end.

(** ** [main(output)] *)
Definition main (BRKT_EMPLOYEE_ACCOUNTS : mapping) (output : string) : io unit :=
  account_list ← collect BRKT_EMPLOYEE_ACCOUNTS;
  let accounts_json := json.dumps account_list 4 in
  output_file ← py_open output;
  file_write output_file accounts_json;;
  file_close output_file.

(** ** [argparse] (Python 2.7), for parsers that have options only *)
Module argparse.

Inductive Action :=
| _HelpAction
| _StoreAction (dest : string) (default : string).

(** The number of argument strings an action takes: none for help, one for
    a store action whose [nargs] is [None]. *)
Definition nargs (a : Action) : nat :=
  match a with
  | _HelpAction => 0
  | _StoreAction _ _ => 1
  end.

(** The parser, as its registry [_option_string_actions]. *)
Definition ArgumentParser := list (string * Action).

(** [ArgumentParser()]: [add_help] defaults to true. *)
Definition new : ArgumentParser :=
  [("-h", _HelpAction); ("--help", _HelpAction)].

Fixpoint lstrip_dashes (s : string) : string :=
  match s with
  | String "-" s' => lstrip_dashes s'
  | _ => s
  end.

Fixpoint dashes_to_underscores (s : string) : string :=
  match s with
  | EmptyString => EmptyString
  | String c s' =>
      String (if Ascii.eqb c "-" then "_"%char else c) (dashes_to_underscores s')
  end.

(** [parser.add_argument(option_string, default=default)] *)
Definition add_argument (parser : ArgumentParser) (option_string default : string)
    : ArgumentParser :=
  (parser ++ [(option_string,
               _StoreAction (dashes_to_underscores (lstrip_dashes option_string))
                            default)])%list.

Fixpoint lookup_option (parser : ArgumentParser) (option_string : string)
    : option Action :=
  match parser with
  | [] => None
  | (s, a) :: parser' =>
      if String.eqb s option_string then Some a
      else lookup_option parser' option_string
  end.

(** [s.split('=', 1)] when [s] contains an equals sign *)
Fixpoint split_eq (s : string) : option (string * string) :=
  match s with
  | EmptyString => None
  | String c s' =>
      if Ascii.eqb c "=" then Some (EmptyString, s')
      else match split_eq s' with
           | Some (a, b) => Some (String c a, b)
           | None => None
           end
  end.

Fixpoint contains (c : ascii) (s : string) : bool :=
  match s with
  | EmptyString => false
  | String c' s' => Ascii.eqb c c' || contains c s'
  end.

Definition is_digit (c : ascii) : bool :=
  (48 <=? nat_of_ascii c)%nat && (nat_of_ascii c <=? 57)%nat.

Fixpoint all_digits (s : string) : bool :=
  match s with
  | EmptyString => true
  | String c s' => is_digit c && all_digits s'
  end.

Fixpoint drop_digits (s : string) : string :=
  match s with
  | String c s' => if is_digit c then drop_digits s' else s
  | EmptyString => s
  end.

(** The end anchor of a regular expression also matches before one final
    newline. *)
Fixpoint chomp (s : string) : string :=
  match s with
  | EmptyString => EmptyString
  | String c s' =>
      if Ascii.eqb c "010" && String.eqb s' EmptyString then EmptyString
      else String c (chomp s')
  end.

Definition nonempty (s : string) : bool := negb (String.eqb s EmptyString).

(** [_negative_number_matcher]: a dash and digits, or a dash, digits, a dot
    and digits. *)
Definition _negative_number_matcher (s : string) : bool :=
  match s with
  | String "-" t =>
      let t := chomp t in
      (nonempty t && all_digits t)
      || match drop_digits t with
         | String "." d => nonempty d && all_digits d
         | _ => false
         end
  | _ => false
  end.

Definition _has_negative_number_optionals (parser : ArgumentParser) : bool :=
  existsb (fun sa => _negative_number_matcher sa.1) parser.

Definition option_tuple : Type := option Action * string * option string.

(** [_get_option_tuples(option_string)]: the registered options that the
    string abbreviates. *)
Definition _get_option_tuples (parser : ArgumentParser) (option_string : string)
    : list option_tuple :=
  match option_string with
  | String "-" (String "-" _) =>
      let '(option_prefix, explicit_arg) :=
        match split_eq option_string with
        | Some (a, b) => (a, Some b)
        | None => (option_string, None)
        end in
      omap (fun sa : string * Action =>
              if String.prefix option_prefix sa.1
              then Some (Some sa.2, sa.1, explicit_arg) else None) parser
  | String "-" _ =>
      let option_prefix := option_string in
      let short_option_prefix := String.substring 0 2 option_string in
      let short_explicit_arg :=
        String.substring 2 (String.length option_string - 2) option_string in
      omap (fun sa : string * Action =>
              if String.eqb sa.1 short_option_prefix
              then Some (Some sa.2, sa.1, Some short_explicit_arg)
              else if String.prefix option_prefix sa.1
              then Some (Some sa.2, sa.1, None) else None) parser
  | _ => []
  end.

Inductive symbol :=
| A
| O (t : option_tuple)
| DoubleDash.

(** [_parse_optional(arg_string)]: [None] stands for the error on an
    ambiguous abbreviation. *)
Definition _parse_optional (parser : ArgumentParser) (arg_string : string)
    : option symbol :=
  match arg_string with
  | EmptyString => Some A
  | String c _ =>
      if negb (Ascii.eqb c "-") then Some A
      else
        match lookup_option parser arg_string with
        | Some a => Some (O (Some a, arg_string, None))
        | None =>
            if (String.length arg_string =? 1)%nat then Some A
            else
              let by_equals :=
                '(option_string, explicit_arg) ← split_eq arg_string;
                a ← lookup_option parser option_string;
                Some (O (Some a, option_string, Some explicit_arg)) in
              match by_equals with
              | Some r => Some r
              | None =>
                  match _get_option_tuples parser arg_string with
                  | _ :: _ :: _ => None
                  | [t] => Some (O t)
                  | [] =>
                      if _negative_number_matcher arg_string
                         && negb (_has_negative_number_optionals parser)
                      then Some A
                      else if contains " " arg_string then Some A
                      else Some (O (None, arg_string, None))
                  end
              end
        end
  end.

(** The first loop of [_parse_known_args]: every argument string gets its
    symbol; after the first double dash all are arguments. *)
Fixpoint classify (parser : ArgumentParser) (arg_strings : list string)
    : option (list (string * symbol)) :=
  match arg_strings with
  | [] => Some []
  | s :: rest =>
      if String.eqb s "--" then
        Some ((s, DoubleDash) :: ((fun s' => (s', A)) <$> rest))
      else
        sym ← _parse_optional parser s;
        pattern ← classify parser rest;
        Some ((s, sym) :: pattern)
  end.

Inductive outcome :=
| Namespace (ns : gmap string string)
| SystemExit (code : Z)
| Uncaught (e : exception).

Definition error : outcome := SystemExit 2.

(** What the inner loop of [consume_optional] arrives at: an error, the
    actions to take, or the actions to take once the last one got the next
    argument string. *)
Inductive resolution :=
| Fail (o : outcome)
| Ready (action_tuples : list (Action * list string))
| WantsValue (action_tuples : list (Action * list string)) (a : Action).

Definition without_explicit_arg (a : Action)
    (action_tuples : list (Action * list string)) : resolution :=
  match nargs a with
  | 0 => Ready (action_tuples ++ [(a, [])])
  | _ => WantsValue action_tuples a
  end.

Definition single_dash (option_string : string) : bool :=
  match option_string with
  | String _ (String c _) => negb (Ascii.eqb c "-")
  | _ => true
  end.

(** The inner loop of [consume_optional] while there is an explicit
    argument: an option that takes one argument gets it; a single-dash
    option that takes none hands the rest over to the option named by the
    next character. *)
Fixpoint with_explicit_arg (parser : ArgumentParser) (explicit_arg : string)
    (a : Action) (option_string : string)
    (action_tuples : list (Action * list string)) : resolution :=
  match nargs a with
  | 1 => Ready (action_tuples ++ [(a, [explicit_arg])])
  | 0 =>
      if single_dash option_string then
        match explicit_arg with
        | EmptyString => Fail (Uncaught (OtherError "IndexError"))
        | String c new_explicit_arg =>
            let option_string' := String "-" (String c EmptyString) in
            match lookup_option parser option_string' with
            | None => Fail error
            | Some a' =>
                if String.eqb new_explicit_arg EmptyString
                then without_explicit_arg a' (action_tuples ++ [(a, [])])
                else with_explicit_arg parser new_explicit_arg a' option_string'
                       (action_tuples ++ [(a, [])])
            end
        end
      else Fail error
  | _ => Fail error
  end.

Definition consume_optional (parser : ArgumentParser) (t : Action * string * option string)
    : resolution :=
  let '(a, option_string, explicit_arg) := t in
  match explicit_arg with
  | Some e => with_explicit_arg parser e a option_string []
  | None => without_explicit_arg a []
  end.

(** [take_action] for each collected action, in order. [_get_values] drops a
    double dash from the argument strings; when none is left the value is
    the empty list, which [open] then refuses with a [TypeError]. *)
Fixpoint take_actions (action_tuples : list (Action * list string))
    (ns : gmap string string) : outcome :=
  match action_tuples with
  | [] => Namespace ns
  | (_HelpAction, _) :: _ => SystemExit 0
  | (_StoreAction dest _, arg_strings) :: rest =>
      match filter (fun s => s ≠ "--") arg_strings with
      | [value] => take_actions rest (<[dest := value]> ns)
      | _ => Uncaught (OtherError "TypeError")
      end
  end.

(** The main loop of [_parse_known_args] for a parser without positional
    arguments, followed by the check of [parse_args] that nothing is left
    over. *)
Fixpoint consume (parser : ArgumentParser) (pattern : list (string * symbol))
    (ns : gmap string string) (extras : list string) : outcome :=
  match pattern with
  | [] => match extras with [] => Namespace ns | _ => error end
  | (s, O (Some a, option_string, explicit_arg)) :: rest =>
      match consume_optional parser (a, option_string, explicit_arg) with
      | Fail o => o
      | Ready action_tuples =>
          match take_actions action_tuples ns with
          | Namespace ns' => consume parser rest ns' extras
          | o => o
          end
      | WantsValue action_tuples a' =>
          match rest with
          | (value, A) :: rest' =>
              match take_actions (action_tuples ++ [(a', [value])]) ns with
              | Namespace ns' => consume parser rest' ns' extras
              | o => o
              end
          | _ => error
          end
      end
  | (s, _) :: rest => consume parser rest ns (extras ++ [s])
  end.

(** The defaults that [parse_args] puts into the namespace first. *)
Fixpoint defaults (parser : ArgumentParser) : gmap string string :=
  match parser with
  | [] => ∅
  | (_, _StoreAction dest default) :: parser' => <[dest := default]> (defaults parser')
  | _ :: parser' => defaults parser'
  end.

(** [parser.parse_args()] on [sys.argv[1:]] *)
Definition parse_args (parser : ArgumentParser) (arg_strings : list string)
    : outcome :=
  match classify parser arg_strings with
  | None => error
  | Some pattern => consume parser pattern (defaults parser) []
  end.

End argparse.

(** ** The script *)

Definition PARSER : argparse.ArgumentParser :=
  argparse.add_argument argparse.new "--output" "./aws_accounts.json".

(** Running the file as a program with the command-line arguments [argv]
    (without the program name): the exit status and the world it leaves. An
    exception that nothing catches ends the process with status 1. *)
Definition script (BRKT_EMPLOYEE_ACCOUNTS : mapping) (argv : list string)
    (w : world) : Z * world :=
  match argparse.parse_args PARSER argv with
  | argparse.Namespace ARGS =>
      match main BRKT_EMPLOYEE_ACCOUNTS (default EmptyString (ARGS !! "output")) w with
      | (Return _, w') => (0%Z, w')
      | (Raise _, w') => (1%Z, w')
      end
  | argparse.SystemExit code => (code, w)
  | argparse.Uncaught _ => (1%Z, w)
  end.

Definition qa_mapping : list (pyval * pyval) :=
  [(PyStr (u "qa"), PyStr (u "475063612724"))].

(** ** The written document *)

(** The text of the qa document with [','] and a newline after the
    identifier, and the text with the item separator of Python 2.7, which
    has a space between that comma and the newline. *)
Definition qa_text_without_space : string :=
  "[" +:+ newline
  +:+ "    {" +:+ newline
  +:+ "        " +:+ dquote +:+ "id" +:+ dquote +:+ ": "
      +:+ dquote +:+ "475063612724" +:+ dquote +:+ "," +:+ newline
  +:+ "        " +:+ dquote +:+ "name" +:+ dquote +:+ ": "
      +:+ dquote +:+ "qa" +:+ dquote +:+ newline
  +:+ "    }" +:+ newline
  +:+ "]".

Definition qa_text : string :=
  "[" +:+ newline
  +:+ "    {" +:+ newline
  +:+ "        " +:+ dquote +:+ "id" +:+ dquote +:+ ": "
      +:+ dquote +:+ "475063612724" +:+ dquote +:+ ", " +:+ newline
  +:+ "        " +:+ dquote +:+ "name" +:+ dquote +:+ ": "
      +:+ dquote +:+ "qa" +:+ dquote +:+ newline
  +:+ "    }" +:+ newline
  +:+ "]".

(** A world with an empty disk that has room for a thousand bytes. *)
Definition empty_disk : world := World ∅ ∅ 1000 4096 ∅ ∅ [].


(** The layout of the output file as the format description gives it: an
    owner object on four lines, [id] before [name], members indented by
    eight spaces and braces by four; the array brackets on lines of their
    own; Python 2.7 puts a space after each separating comma. *)
Definition member_text (key : string) (v : pyval) : string :=
  dquote +:+ key +:+ dquote +:+ ": " +:+ json.encode_value v.

Definition object_text (item : pyval * pyval) : string :=
  "{" +:+ newline
  +:+ "        " +:+ member_text "id" item.2 +:+ ", " +:+ newline
  +:+ "        " +:+ member_text "name" item.1 +:+ newline
  +:+ "    }".

Definition document_text (items : list (pyval * pyval)) : string :=
  match items with
  | [] => "[]"
  | _ =>
      "[" +:+ newline
      +:+ "    " +:+ join (", " +:+ newline +:+ "    ") (object_text <$> items)
      +:+ newline +:+ "]"
  end.

(** A world whose device is full, and a world in which [/etc/passwd] exists
    and cannot be opened for writing. *)
Definition full_disk : world := World ∅ ∅ 0 4096 ∅ ∅ [].

Definition protected_file : world :=
  World {["/etc/passwd" := "root:x:0:0"]} {["/etc/passwd" := EACCES]} 1000 4096
        ∅ ∅ [].

(** Three accounts, in an order that is not the alphabetical one. *)
Definition three_accounts : list (pyval * pyval) :=
  [(PyStr (u "qa"), PyStr (u "475063612724"));
   (PyStr (u "dev"), PyStr (u "123456789012"));
   (PyStr (u "prod"), PyStr (u "210987654321"))].

(** Two hundred accounts, named account-0 to account-199. Their document
    has more than fourteen thousand characters, that is more than three
    blocks of 4096 bytes. *)
Definition many_accounts : list (pyval * pyval) :=
  (fun i : nat =>
     (PyStr (u ("account-" +:+ NilZero.string_of_uint (Nat.to_uint i))),
      PyStr (u (NilZero.string_of_uint
                  (N.to_uint (475063612724 + N.of_nat i))))))
  <$> seq 0 200.

(** Two entries with the same identifier whose names are different texts:
    one code point above the basic plane, and the two surrogates that stand
    for it in UTF-16. *)
Definition astral_accounts : list (pyval * pyval) :=
  [(PyStr [128512%N], PyStr (u "475063612724"));
   (PyStr [55357%N; 56832%N], PyStr (u "475063612724"))].

(** The calls that a complete run of [main] makes, in order. *)
Definition full_run (output : string) (fd : nat) (text : string) : list syscall :=
  [SysOpen output; SysWrite fd text; SysClose fd].

(** Whether an argument string names the output option, in full, abbreviated
    or with an attached value. *)
Definition names_output_option (arg_string : string) : bool :=
  match argparse._parse_optional PARSER arg_string with
  | Some (argparse.O (Some (argparse._StoreAction _ _), _, _)) => true
  | _ => false
  end.

(** ** Reading the document back

    What a text denotes as a JSON document of the kind the exporter writes:
    an array of objects whose members are scalars. The reader works in two
    passes, each a machine that takes one character, or one token, at a
    time. *)
Module reader.

Inductive token :=
| LBracket | RBracket | LBrace | RBrace | Comma | Colon
| TString (s : unicode)
| TInt (z : Z)
| TTrue | TFalse | TNull.

(** [InString], [InEscape] and [InHex] carry the code units of the string
    read so far; [InHex] also the number of hexadecimal digits read and their
    value; [InNumber] carries the digits read, the last one first; [InWord]
    the characters that must follow. *)
Inductive lex_state :=
| Idle
| InString (units : list N)
| InEscape (units : list N)
| InHex (units : list N) (count : nat) (value : N)
| InNumber (negative : bool) (digits : Decimal.uint)
| InWord (expected : string) (t : token).

Definition hexval (a : ascii) : option N :=
  let n := N_of_ascii a in
  if (48 <=? n)%N && (n <=? 57)%N then Some (n - 48)%N
  else if (97 <=? n)%N && (n <=? 102)%N then Some (n - 87)%N
  else if (65 <=? n)%N && (n <=? 70)%N then Some (n - 55)%N
  else None.

Definition digit (a : ascii) : option (Decimal.uint -> Decimal.uint) :=
  match a with
  | "0" => Some Decimal.D0 | "1" => Some Decimal.D1 | "2" => Some Decimal.D2
  | "3" => Some Decimal.D3 | "4" => Some Decimal.D4 | "5" => Some Decimal.D5
  | "6" => Some Decimal.D6 | "7" => Some Decimal.D7 | "8" => Some Decimal.D8
  | "9" => Some Decimal.D9
  | _ => None
  end%char.

(** A high surrogate followed by a low one stands for one code point above
    the basic plane. *)
Fixpoint combine_surrogates (units : list N) : unicode :=
  match units with
  | [] => []
  | hi :: rest =>
      match rest with
      | lo :: rest' =>
          if (55296 <=? hi)%N && (hi <? 56320)%N
             && (56320 <=? lo)%N && (lo <? 57344)%N
          then (65536 + (hi - 55296) * 1024 + (lo - 56320))%N
                 :: combine_surrogates rest'
          else hi :: combine_surrogates rest
      | [] => [hi]
      end
  end.

Definition number (negative : bool) (digits : Decimal.uint) : option token :=
  match digits with
  | Decimal.Nil => None
  | _ =>
      let d := Decimal.rev digits in
      Some (TInt (Z.of_int (if negative then Decimal.Neg d else Decimal.Pos d)))
  end.

Definition step_idle (toks : list token) (a : ascii)
    : option (list token * lex_state) :=
  match digit a with
  | Some d => Some (toks, InNumber false (d Decimal.Nil))
  | None =>
      match a with
      | " " | "009" | "010" | "013" => Some (toks, Idle)
      | "[" => Some (toks ++ [LBracket], Idle)
      | "]" => Some (toks ++ [RBracket], Idle)
      | "{" => Some (toks ++ [LBrace], Idle)
      | "}" => Some (toks ++ [RBrace], Idle)
      | "," => Some (toks ++ [Comma], Idle)
      | ":" => Some (toks ++ [Colon], Idle)
      | "034" => Some (toks, InString [])
      | "-" => Some (toks, InNumber true Decimal.Nil)
      | "t" => Some (toks, InWord "rue" TTrue)
      | "f" => Some (toks, InWord "alse" TFalse)
      | "n" => Some (toks, InWord "ull" TNull)
      | _ => None
      end%char
  end.

Definition step (toks : list token) (st : lex_state) (a : ascii)
    : option (list token * lex_state) :=
  match st with
  | Idle => step_idle toks a
  | InString units =>
      let n := N_of_ascii a in
      if (n =? 34)%N then
        Some (toks ++ [TString (combine_surrogates units)], Idle)
      else if (n =? 92)%N then Some (toks, InEscape units)
      else if (32 <=? n)%N && (n <? 128)%N then
        Some (toks, InString (units ++ [n]))
      else None
  | InEscape units =>
      match a with
      | "034" => Some (toks, InString (units ++ [34%N]))
      | "\" => Some (toks, InString (units ++ [92%N]))
      | "/" => Some (toks, InString (units ++ [47%N]))
      | "b" => Some (toks, InString (units ++ [8%N]))
      | "f" => Some (toks, InString (units ++ [12%N]))
      | "n" => Some (toks, InString (units ++ [10%N]))
      | "r" => Some (toks, InString (units ++ [13%N]))
      | "t" => Some (toks, InString (units ++ [9%N]))
      | "u" => Some (toks, InHex units 0 0)
      | _ => None
      end%char
  | InHex units count value =>
      match hexval a with
      | Some d =>
          let value' := (16 * value + d)%N in
          if (count =? 3)%nat then Some (toks, InString (units ++ [value']))
          else Some (toks, InHex units (S count) value')
      | None => None
      end
  | InNumber negative digits =>
      match digit a with
      | Some d => Some (toks, InNumber negative (d digits))
      | None =>
          match number negative digits with
          | Some t => step_idle (toks ++ [t]) a
          | None => None
          end
      end
  | InWord expected t =>
      match expected with
      | String e rest =>
          if Ascii.eqb a e then
            match rest with
            | EmptyString => Some (toks ++ [t], Idle)
            | _ => Some (toks, InWord rest t)
            end
          else None
      | EmptyString => None
      end
  end.

Fixpoint lex (toks : list token) (st : lex_state) (s : string)
    : option (list token) :=
  match s with
  | EmptyString =>
      match st with
      | Idle => Some toks
      | InNumber negative digits =>
          match number negative digits with
          | Some t => Some (toks ++ [t])
          | None => None
          end
      | _ => None
      end
  | String a s' =>
      match step toks st a with
      | Some (toks', st') => lex toks' st' s'
      | None => None
      end
  end.

Definition tokens (s : string) : option (list token) := lex [] Idle s.

(** An object as read: its members in the order of the text. *)
Definition object : Type := list (unicode * pyval).

Inductive parse_state :=
| Start
| ArrayOpen
| ObjectOpen (objs : list object)
| AfterKey (objs : list object) (members : object) (key : unicode)
| AfterColon (objs : list object) (members : object) (key : unicode)
| AfterValue (objs : list object) (members : object)
| AfterMemberComma (objs : list object) (members : object)
| AfterObject (objs : list object)
| AfterArrayComma (objs : list object)
| Done (objs : list object).

Definition value_of_token (t : token) : option pyval :=
  match t with
  | TString s => Some (PyStr s)
  | TInt z => Some (PyInt z)
  | TTrue => Some (PyBool true)
  | TFalse => Some (PyBool false)
  | TNull => Some PyNone
  | _ => None
  end.

Definition parse_step (st : parse_state) (t : token) : option parse_state :=
  match st, t with
  | Start, LBracket => Some ArrayOpen
  | ArrayOpen, RBracket => Some (Done [])
  | ArrayOpen, LBrace => Some (ObjectOpen [])
  | ObjectOpen objs, RBrace => Some (AfterObject (objs ++ [[]]))
  | ObjectOpen objs, TString key => Some (AfterKey objs [] key)
  | AfterKey objs members key, Colon => Some (AfterColon objs members key)
  | AfterColon objs members key, _ =>
      match value_of_token t with
      | Some v => Some (AfterValue objs (members ++ [(key, v)]))
      | None => None
      end
  | AfterValue objs members, Comma => Some (AfterMemberComma objs members)
  | AfterValue objs members, RBrace => Some (AfterObject (objs ++ [members]))
  | AfterMemberComma objs members, TString key => Some (AfterKey objs members key)
  | AfterObject objs, Comma => Some (AfterArrayComma objs)
  | AfterObject objs, RBracket => Some (Done objs)
  | AfterArrayComma objs, LBrace => Some (ObjectOpen objs)
  | _, _ => None
  end.

Fixpoint parse_from (st : parse_state) (toks : list token)
    : option (list object) :=
  match toks with
  | [] => match st with Done objs => Some objs | _ => None end
  | t :: toks' =>
      match parse_step st t with
      | Some st' => parse_from st' toks'
      | None => None
      end
  end.

(** The objects of the array that the text holds, if it is such a
    document. *)
Definition loads (s : string) : option (list object) :=
  match tokens s with
  | Some toks => parse_from Start toks
  | None => None
  end.

End reader.

(** The code units in which the encoder writes a code point: itself in the
    basic plane, a pair of surrogates above it. *)
Definition utf16_units (c : N) : list N :=
  if (c <? 65536)%N then [c]
  else
    let n := (c - 65536)%N in
    [N.lor 55296 (N.land (N.shiftr n 10) 1023); N.lor 56320 (N.land n 1023)].

(** A value as it is read back from its encoding. *)
Definition reread (v : pyval) : pyval :=
  match v with
  | PyStr s => PyStr (reader.combine_surrogates (s ≫= utf16_units))
  | _ => v
  end.

(** The owner object that the exporter writes for an entry, as read back:
    the member [id] first. *)
Definition owner_record (item : pyval * pyval) : reader.object :=
  [(u "id", reread item.2); (u "name", reread item.1)].

(** Text made of Unicode scalar values: code points up to 0x10FFFF that are
    no surrogates. *)
Definition is_scalar_value (c : N) : bool :=
  (c <? 55296)%N || ((57344 <=? c)%N && (c <? 1114112)%N).

Definition well_formed (v : pyval) : bool :=
  match v with
  | PyStr s => forallb is_scalar_value s
  | _ => true
  end.

Definition well_formed_item (item : pyval * pyval) : bool :=
  well_formed item.1 && well_formed item.2.

(** The tokens of a value, of an owner object and of the whole document. *)
Definition token_of_value (v : pyval) : reader.token :=
  match v with
  | PyStr s => reader.TString s
  | PyInt z => reader.TInt z
  | PyBool true => reader.TTrue
  | PyBool false => reader.TFalse
  | PyNone => reader.TNull
  end.

Definition object_tokens (item : pyval * pyval) : list reader.token :=
  [reader.LBrace;
   reader.TString (u "id"); reader.Colon; token_of_value (reread item.2);
   reader.Comma;
   reader.TString (u "name"); reader.Colon; token_of_value (reread item.1);
   reader.RBrace].

Fixpoint objects_tokens (items : list (pyval * pyval)) : list reader.token :=
  match items with
  | [] => []
  | [item] => object_tokens item
  | item :: rest => object_tokens item ++ reader.Comma :: objects_tokens rest
  end.

Definition document_tokens (items : list (pyval * pyval)) : list reader.token :=
  reader.LBracket :: objects_tokens items ++ [reader.RBracket].

(** Action tuples that begin with the help action, and resolutions of an
    option string that can no longer end in a namespace because they do. *)
Definition help_first (action_tuples : list (argparse.Action * list string)) : Prop :=
  exists arg_strings rest,
    action_tuples = (argparse._HelpAction, arg_strings) :: rest.


Definition never_parsed (r : argparse.resolution) : Prop :=
  match r with
  | argparse.Fail o => forall ns, o <> argparse.Namespace ns
  | argparse.Ready ts => help_first ts
  | argparse.WantsValue ts _ => help_first ts
  end.


(** ** Further notions used to state properties of the script *)

(** The exit status with which the process ends after [main] returned or
    raised, as in [script]. *)
Definition exits (rw : result unit * world) : Z * world :=
  match rw with
  | (Return _, w') => (0%Z, w')
  | (Raise _, w') => (1%Z, w')
  end.

(** The command line that gives the output option once for each path. *)
Definition output_args (paths : list string) : list string :=
  paths ≫= (fun path => ["--output"; path]).

(** The store action that [add_argument] registers for [--output]. *)
Definition output_action : argparse.Action :=
  argparse._StoreAction "output" "./aws_accounts.json".

(** The symbols that the first loop of [_parse_known_args] gives to
    [output_args paths] when no path begins with a dash. *)
Definition output_pattern (paths : list string)
    : list (string * argparse.symbol) :=
  paths ≫= (fun path =>
    [("--output", argparse.O (Some output_action, "--output", None));
     (path, argparse.A)]).

(** Whether an argument string names the help option, in full, abbreviated
    or with something attached. *)
Definition names_help_option (arg_string : string) : bool :=
  match argparse._parse_optional PARSER arg_string with
  | Some (argparse.O (Some argparse._HelpAction, _, _)) => true
  | _ => false
  end.

(** The strings that stand for the help option: its two names and the
    abbreviations of the long one. *)
Definition help_strings : list string :=
  ["-h"; "--h"; "--he"; "--hel"; "--help"].

(** A world in which [a.json] exists and the device has room for seven
    more bytes. *)
Definition nearly_full_disk : world :=
  World {["a.json" := "old"]} ∅ 7 4096 ∅ ∅ [].

Fixpoint all_chars (P : ascii -> bool) (s : string) : bool :=
  match s with
  | EmptyString => true
  | String a s' => P a && all_chars P s'
  end.

Fixpoint count_char (c : ascii) (s : string) : nat :=
  match s with
  | EmptyString => 0
  | String a s' => (if Ascii.eqb a c then 1 else 0) + count_char c s'
  end.

(** The printable characters of ASCII, from the space to the tilde. *)
Definition printable (a : ascii) : bool :=
  (32 <=? N_of_ascii a)%N && (N_of_ascii a <=? 126)%N.

Definition printable_or_newline (a : ascii) : bool :=
  printable a || Ascii.eqb a "010".
(** * Properties *)

Lemma sorted_items_owner name account :
  json.sorted_items (owner name account) = [("id", account); ("name", name)].
Proof. reflexivity. Qed.

(** ** Strings *)

Lemma append_String c s t : String c s +:+ t = String c (s +:+ t).
Proof. reflexivity. Qed.

Lemma append_empty_l s : EmptyString +:+ s = s.
Proof. reflexivity. Qed.

Lemma append_empty_r s : s +:+ EmptyString = s.
Proof. induction s as [|c s IH]; [done|]. by rewrite append_String, IH. Qed.

Lemma append_assoc s t r : (s +:+ t) +:+ r = s +:+ (t +:+ r).
Proof.
  induction s as [|c s IH]; [done|]. by rewrite !append_String, IH.
Qed.

Lemma length_append s t :
  String.length (s +:+ t) = String.length s + String.length t.
Proof.
  induction s as [|c s IH]; [done|]. rewrite append_String. cbn. by rewrite IH.
Qed.

(** Brings a concatenation to the form [String c1 (String c2 (... +:+ ...))]. *)
Ltac string_norm :=
  repeat first
    [ rewrite append_assoc
    | rewrite append_String
    | rewrite append_empty_l ].

Lemma substring_0_length n s :
  n <= String.length s -> String.length (String.substring 0 n s) = n.
Proof.
  revert s. induction n as [|n IH]; intros [|c s]; cbn; try done; try lia.
  intros Hn. rewrite IH; lia.
Qed.

Lemma substring_0_prefix n s : String.prefix (String.substring 0 n s) s = true.
Proof.
  revert s. induction n as [|n IH]; intros [|c s]; cbn; try done.
  destruct (ascii_dec c c); [apply IH|done].
Qed.

Lemma substring_0_0 s : String.substring 0 0 s = EmptyString.
Proof. by destruct s. Qed.

(** Taking at least as many characters as there are takes them all. *)
Lemma substring_0_all n s :
  String.length s <= n -> String.substring 0 n s = s.
Proof.
  revert s. induction n as [|n IH]; intros [|c s]; cbn; try done; try lia.
  intros Hn. rewrite IH; [done|lia].
Qed.

Lemma substring_0_substring m n s :
  m <= n -> String.substring 0 m (String.substring 0 n s) = String.substring 0 m s.
Proof.
  revert n s. induction m as [|m IH]; intros [|n] [|c s] Hm; cbn; try done;
    try lia.
  rewrite IH; [done|lia].
Qed.

Lemma length_substring n m s :
  n + m <= String.length s -> String.length (String.substring n m s) = m.
Proof.
  revert s. induction n as [|n IH]; intros s Hn.
  - by apply substring_0_length.
  - destruct s as [|c s]; cbn in *; [lia|]. apply IH. lia.
Qed.

(** The first [n] characters, followed by what [m - n] characters take of
    the rest, are the first [m] characters. *)
Lemma substring_split n m s :
  n <= m ->
  String.substring 0 n s
    +:+ String.substring 0 (m - n)
          (String.substring n (String.length s - n) s)
  = String.substring 0 m s.
Proof.
  revert m s. induction n as [|n IH]; intros m s Hn.
  - rewrite !Nat.sub_0_r, (substring_0_all (String.length s) s) by lia.
    by destruct s.
  - destruct m as [|m]; [lia|].
    destruct s as [|c s]; [cbn; by destruct (m - n)|].
    cbn [String.substring String.length]. rewrite append_String.
    rewrite Nat.sub_succ. f_equal. apply IH. lia.
Qed.

(** ** What a run of [main] does to the world *)

Lemma accounts_json_nonempty items : accounts_json items <> EmptyString.
Proof.
  unfold accounts_json, json.dumps, json._iterencode_list.
  by destruct (build_account_list items).
Qed.

Lemma whole_blocks_le block_size n : whole_blocks block_size n <= n.
Proof. unfold whole_blocks. lia. Qed.

Lemma sys_write_empty path w : sys_write path EmptyString w = (true, w).
Proof. unfold sys_write. by rewrite decide_True. Qed.

(** Writing to a file that exists, when the data fit and when they do not. *)
Lemma sys_write_fits path data w c :
  files w !! path = Some c ->
  String.length data <= free_space w ->
  sys_write path data w =
    (true,
     World (<[path := c +:+ data]> (files w)) (unwritable w)
           (free_space w - String.length data) (buffer_size w)
           (open_files w) (buffered w) (trace w)).
Proof.
  intros Hc Hfits. unfold sys_write, content. rewrite Hc. cbn [default].
  destruct (decide (data = EmptyString)) as [->|_].
  - rewrite append_empty_r, insert_id by done. cbn. rewrite Nat.sub_0_r.
    by destruct w.
  - by rewrite decide_True.
Qed.

Lemma sys_write_full path data w c :
  files w !! path = Some c ->
  free_space w < String.length data ->
  sys_write path data w =
    (false,
     World (<[path := c +:+ String.substring 0 (free_space w) data]> (files w))
           (unwritable w) 0 (buffer_size w)
           (open_files w) (buffered w) (trace w)).
Proof.
  intros Hc Hfull. unfold sys_write, content. rewrite Hc. cbn [default].
  rewrite decide_False by (intros ->; cbn in Hfull; lia).
  by rewrite decide_False by lia.
Qed.

Section main_runs.
Context (items : list (pyval * pyval)) (output : string) (w : world).

Let text := accounts_json items.
Let fd := fresh (dom (open_files w)).
Let room := free_space w + String.length (content w output).
Let direct := whole_blocks (buffer_size w) (String.length text).

Lemma fd_is_new : open_files w !! fd = None.
Proof. apply not_elem_of_dom, is_fresh. Qed.

(** The world after [open] accepted the path. *)
Let opened : world :=
  World (<[output := EmptyString]> (files w)) (unwritable w) room
        (buffer_size w) (<[fd := output]> (open_files w))
        (delete fd (buffered w)) (trace w ++ [SysOpen output]).

(** [write] on the new file object: a whole number of blocks goes to the
    device, the rest stays in the buffer; on a device without room for the
    blocks, [IOError] is raised. *)
Lemma file_write_opened :
  file_write fd text opened =
    if decide (direct <= room) then
      (Return tt,
       World (<[output := String.substring 0 direct text]> (files w))
             (unwritable w) (room - direct) (buffer_size w)
             (<[fd := output]> (open_files w))
             (<[fd := String.substring direct (String.length text - direct) text]>
                (delete fd (buffered w)))
             (trace w ++ [SysOpen output; SysWrite fd text]))
    else
      (Raise (IOError ENOSPC),
       World (<[output := String.substring 0 room text]> (files w))
             (unwritable w) 0 (buffer_size w)
             (<[fd := output]> (open_files w))
             (<[fd := EmptyString]> (delete fd (buffered w)))
             (trace w ++ [SysOpen output; SysWrite fd text])).
Proof.
  pose proof (whole_blocks_le (buffer_size w) (String.length text)) as Hle.
  fold direct in Hle.
  assert (text <> EmptyString) as Hne by apply accounts_json_nonempty.
  assert (0 < String.length text) as Hpos by (destruct text; [done|cbn; lia]).
  unfold file_write, opened, pending.
  cbn [open_files buffered buffer_size].
  rewrite lookup_insert_eq, lookup_delete_eq. cbn [default].
  rewrite decide_False by done. rewrite decide_False by lia.
  rewrite !Nat.sub_0_r, substring_0_0, append_empty_l, sys_write_empty.
  rewrite (substring_0_all (String.length text) text) by lia.
  fold direct.
  assert (String.length (String.substring 0 direct text) = direct) as Hlen
    by by apply substring_0_length.
  destruct (decide (direct <= room)) as [Hfits|Hfull].
  - rewrite (sys_write_fits _ _ _ EmptyString);
      [|apply lookup_insert_eq|cbn; lia].
    unfold log, set_buffer. cbn.
    rewrite Hlen, insert_insert_eq, append_empty_l, <- app_assoc. done.
  - rewrite (sys_write_full _ _ _ EmptyString);
      [|apply lookup_insert_eq|cbn; lia].
    unfold log, set_buffer. cbn.
    rewrite insert_insert_eq, append_empty_l, <- app_assoc.
    rewrite substring_0_substring by lia. done.
Qed.

(** The ways a run over a proper mapping can go: [open] refuses the path;
    the document fits and is written; [close] raises, because what was left
    in the buffer does not fit; [write] raises, because the whole blocks of
    the document do not fit. *)
Lemma main_Dict :
  main (Dict items) output w =
    match unwritable w !! output with
    | Some e =>
        (Raise (IOError e),
         World (files w) (unwritable w) (free_space w) (buffer_size w)
               (open_files w) (buffered w) (trace w ++ [SysOpen output]))
    | None =>
        if decide (String.length text <= room) then
          (Return tt,
           World (<[output := text]> (files w)) (unwritable w)
                 (room - String.length text) (buffer_size w) (open_files w)
                 (delete fd (buffered w))
                 (trace w ++ [SysOpen output; SysWrite fd text; SysClose fd]))
        else if decide (direct <= room) then
          (Raise (IOError ENOSPC),
           World (<[output := String.substring 0 room text]> (files w))
                 (unwritable w) 0 (buffer_size w) (open_files w)
                 (delete fd (buffered w))
                 (trace w ++ [SysOpen output; SysWrite fd text; SysClose fd]))
        else
          (Raise (IOError ENOSPC),
           World (<[output := String.substring 0 room text]> (files w))
                 (unwritable w) 0 (buffer_size w)
                 (<[fd := output]> (open_files w))
                 (<[fd := EmptyString]> (delete fd (buffered w)))
                 (trace w ++ [SysOpen output; SysWrite fd text]))
    end.
Proof.
  pose proof (whole_blocks_le (buffer_size w) (String.length text)) as Hle.
  fold direct in Hle.
  unfold main, collect, mbind, io_mbind, io_bind, io_ret, py_open.
  destruct (unwritable w !! output) as [e|] eqn:Hperm; [done|].
  fold fd room opened. unfold accounts_json in text. fold text.
  rewrite file_write_opened.
  destruct (decide (direct <= room)) as [Hblocks|Hblocks].
  2: { rewrite decide_False by lia. done. }
  unfold file_close, pending. cbn [open_files buffered].
  rewrite !lookup_insert_eq. cbn [default].
  assert (String.length
            (String.substring direct (String.length text - direct) text)
          = String.length text - direct) as Hlen
    by (apply length_substring; lia).
  destruct (decide (String.length text <= room)) as [Hfits|Hfull].
  - rewrite (sys_write_fits _ _ _ (String.substring 0 direct text));
      [|apply lookup_insert_eq|cbn; lia].
    cbn. rewrite Hlen, insert_insert_eq, !delete_insert_eq.
    rewrite (delete_id _ _ fd_is_new), delete_delete_eq, <- !app_assoc.
    assert (String.substring 0 direct text
              +:+ String.substring direct (String.length text - direct) text
            = text) as ->.
    { pose proof (substring_split direct (String.length text) text Hle) as H.
      rewrite (substring_0_all (String.length text - direct)) in H by lia.
      rewrite H. apply substring_0_all. lia. }
    replace (room - direct - (String.length text - direct))
      with (room - String.length text) by lia.
    done.
  - rewrite (sys_write_full _ _ _ (String.substring 0 direct text));
      [|apply lookup_insert_eq|cbn; lia].
    cbn. rewrite insert_insert_eq, !delete_insert_eq.
    rewrite (delete_id _ _ fd_is_new), delete_delete_eq, <- !app_assoc.
    rewrite substring_split by lia. done.
Qed.

Lemma main_Faulty yielded e :
  main (Faulty yielded e) output w = (Raise e, w).
Proof. reflexivity. Qed.

(** A run returns exactly when the path can be opened and the text fits. *)
Lemma main_returns w' :
  main (Dict items) output w = (Return tt, w') ->
  unwritable w !! output = None /\
  String.length text <= room /\
  w' = World (<[output := text]> (files w)) (unwritable w)
             (room - String.length text) (buffer_size w) (open_files w)
             (delete fd (buffered w))
             (trace w ++ [SysOpen output; SysWrite fd text; SysClose fd]).
Proof.
  rewrite main_Dict. destruct (unwritable w !! output); [done|].
  destruct (decide _); [|by destruct (decide _)]. intros [= <-]. done.
Qed.

Lemma main_written w' :
  main (Dict items) output w = (Return tt, w') ->
  files w' !! output = Some text.
Proof.
  intros (_ & _ & ->)%main_returns. cbn. apply lookup_insert_eq.
Qed.

End main_runs.


(** C3, as stated, fails: on the mapping with the single entry qa the run
    succeeds and the file does not hold the text without the space. *)
Lemma C3_not_the_text_without_space :
  (main (Dict qa_mapping) "./aws_accounts.json" empty_disk).1 = Return tt /\
  files (main (Dict qa_mapping) "./aws_accounts.json" empty_disk).2
    !! "./aws_accounts.json" <> Some qa_text_without_space.
Proof. split; [reflexivity | vm_compute; discriminate]. Qed.

(** C3, amended: on the mapping with the single entry qa, the file holds
    exactly the document with [id] before [name], indented by four and eight
    spaces, with one space between the comma and the newline, no newline at
    the end and nothing else, whatever the file held before. *)
Theorem C3_qa_file_content output w w' :
  main (Dict qa_mapping) output w = (Return tt, w') ->
  files w' !! output = Some qa_text.
Proof. intros H%main_written. rewrite H. reflexivity. Qed.

Lemma C3_qa_file_content_witness :
  files (main (Dict qa_mapping) "./aws_accounts.json" empty_disk).2
    !! "./aws_accounts.json" = Some qa_text.
Proof.
  apply (C3_qa_file_content "./aws_accounts.json" empty_disk). reflexivity.
Defined.

(** C4: on an empty mapping the file holds exactly the two characters of
    the empty array. *)
Theorem C4_empty_mapping output w w' :
  main (Dict []) output w = (Return tt, w') ->
  files w' !! output = Some "[]".
Proof. intros H%main_written. rewrite H. reflexivity. Qed.

Lemma C4_empty_mapping_witness :
  files (main (Dict []) "./aws_accounts.json" empty_disk).2
    !! "./aws_accounts.json" = Some "[]".
Proof.
  apply (C4_empty_mapping "./aws_accounts.json" empty_disk). reflexivity.
Defined.


(** ** The list that [main] builds *)

Lemma account_list_loop_app items acc :
  account_list_loop items acc = acc ++ ((fun e => owner e.1 e.2) <$> items).
Proof.
  revert acc. induction items as [|[name account] items IH]; intros acc; cbn.
  - by rewrite app_nil_r.
  - by rewrite IH, <- app_assoc.
Qed.

Lemma build_account_list_fmap items :
  build_account_list items = (fun e => owner e.1 e.2) <$> items.
Proof. apply account_list_loop_app. Qed.

Lemma owner_nonempty name account : owner name account <> ∅.
Proof. apply insert_non_empty. Qed.

Lemma iterencode_owner item :
  json._iterencode_dict 4 (owner item.1 item.2) 1 = object_text item.
Proof.
  unfold json._iterencode_dict.
  rewrite decide_False by apply owner_nonempty.
  rewrite sorted_items_owner.
  unfold object_text, member_text, json.encode_item. cbn [fmap list_fmap join fst snd].
  change (json.encode_basestring_ascii (u "id")) with (dquote +:+ "id" +:+ dquote).
  change (json.encode_basestring_ascii (u "name")) with (dquote +:+ "name" +:+ dquote).
  rewrite !append_assoc. reflexivity.
Qed.

Lemma accounts_json_layout items : accounts_json items = document_text items.
Proof.
  unfold accounts_json, json.dumps, json._iterencode_list.
  rewrite build_account_list_fmap.
  rewrite <- list_fmap_compose.
  rewrite (list_fmap_ext _ object_text items)
    by (intros; apply iterencode_owner).
  destruct items as [|item items]; [done|].
  unfold document_text. rewrite ?append_assoc. reflexivity.
Qed.

(** ** Sorting the keys *)

Global Instance key_le_total : Total json.key_le.
Proof. intros [k1 v1] [k2 v2]. unfold json.key_le. cbn. apply total, _. Qed.

Global Instance key_le_trans : Transitive json.key_le.
Proof.
  intros [k1 v1] [k2 v2] [k3 v3]. unfold json.key_le. cbn. apply transitivity.
Qed.





(** ** Failures *)

Lemma script_runs_main m argv ARGS w :
  argparse.parse_args PARSER argv = argparse.Namespace ARGS ->
  script m argv w =
    match main m (default EmptyString (ARGS !! "output")) w with
    | (Return _, w') => (0%Z, w')
    | (Raise _, w') => (1%Z, w')
    end.
Proof. intros H. unfold script. by rewrite H. Qed.

(** C6: when the output path cannot be opened for writing, the program ends
    with a status other than zero, and no file is created, truncated or
    changed; a file that exists at the path keeps its content. *)
Theorem C6_unwritable_output m argv ARGS output e w :
  argparse.parse_args PARSER argv = argparse.Namespace ARGS ->
  ARGS !! "output" = Some output ->
  unwritable w !! output = Some e ->
  (script m argv w).1 <> 0%Z /\
  files (script m argv w).2 = files w /\
  files (script m argv w).2 !! output = files w !! output /\
  open_files (script m argv w).2 = open_files w.
Proof.
  intros Hargs Hout Hperm. rewrite (script_runs_main _ _ _ _ Hargs), Hout. cbn.
  destruct m as [items|yielded e'].
  - rewrite main_Dict, Hperm. done.
  - rewrite main_Faulty. done.
Qed.

Lemma C6_unwritable_output_witness :
  (script (Dict qa_mapping) ["--output"; "/etc/passwd"] protected_file).1 <> 0%Z /\
  files (script (Dict qa_mapping) ["--output"; "/etc/passwd"] protected_file).2
    = files protected_file /\
  files (script (Dict qa_mapping) ["--output"; "/etc/passwd"] protected_file).2
    !! "/etc/passwd" = files protected_file !! "/etc/passwd" /\
  open_files (script (Dict qa_mapping) ["--output"; "/etc/passwd"] protected_file).2
    = open_files protected_file.
Proof.
  apply (C6_unwritable_output (Dict qa_mapping) ["--output"; "/etc/passwd"]
           {["output" := "/etc/passwd"]} "/etc/passwd" EACCES protected_file);
    reflexivity.
Defined.

(** C7, as stated, fails: the document of two hundred accounts takes more
    than a block, so [write] passes whole blocks on to the device at once;
    on a full device it raises, the error leaves [main], and the file object
    that was opened is still open; no call of [close] was made. *)
Lemma C7_handle_left_open :
  (main (Dict many_accounts) "out.json" full_disk).1 = Raise (IOError ENOSPC) /\
  open_files (main (Dict many_accounts) "out.json" full_disk).2 !! 0
    = Some "out.json" /\
  open_files full_disk !! 0 = None /\
  trace (main (Dict many_accounts) "out.json" full_disk).2 =
    [SysOpen "out.json"; SysWrite 0 (accounts_json many_accounts)].
Proof. vm_compute. repeat split. Qed.

(** C7, amended: a run that returns has closed the file object it opened,
    with [close] as its last call; a run that fails before a file object
    exists (the mapping raises, or [open] refuses the path) leaves none
    open; when the device has room for the blocks that [write] passes on at
    once, [close] is reached and releases the file object, also when it
    raises because the rest of the document does not fit; when the device
    has no room for these blocks, [write] raises and the error leaves [main]
    with the file object open, [close] not being called. *)
Theorem C7_handle_release m output w r w' :
  main m output w = (r, w') ->
  (r = Return tt ->
     open_files w' = open_files w /\
     exists fd text, trace w' = trace w ++ full_run output fd text) /\
  ((exists yielded e, m = Faulty yielded e) \/ is_Some (unwritable w !! output) ->
     open_files w' = open_files w) /\
  (forall items, m = Dict items -> unwritable w !! output = None ->
     (whole_blocks (buffer_size w) (String.length (accounts_json items))
        <= free_space w + String.length (content w output) ->
      open_files w' = open_files w /\
      exists fd,
        trace w' = trace w ++ full_run output fd (accounts_json items)) /\
     (free_space w + String.length (content w output)
        < whole_blocks (buffer_size w) (String.length (accounts_json items)) ->
      r = Raise (IOError ENOSPC) /\
      exists fd,
        open_files w !! fd = None /\
        open_files w' = <[fd := output]> (open_files w) /\
        trace w' = trace w
                     ++ [SysOpen output; SysWrite fd (accounts_json items)])).
Proof.
  intros Hrun. destruct m as [items|yielded e].
  - rewrite main_Dict in Hrun.
    destruct (unwritable w !! output) as [e|] eqn:Hperm.
    + injection Hrun as <- <-. split; [|split].
      * intros [=].
      * done.
      * intros ? _ [=].
    + pose proof (whole_blocks_le (buffer_size w)
                    (String.length (accounts_json items))) as Hle.
      destruct (decide (String.length _ <= _)) as [Hfits|Hfull];
        [|destruct (decide (whole_blocks _ _ <= _)) as [Hblocks|Hblocks]];
        injection Hrun as <- <-.
      * split; [|split].
        -- intros _. split; [done|]. eexists _, _. reflexivity.
        -- done.
        -- intros ? [= <-] _. split; [|lia].
           intros _. split; [done|]. eexists. reflexivity.
      * split; [|split].
        -- intros [=].
        -- done.
        -- intros ? [= <-] _. split; [|lia].
           intros _. split; [done|]. eexists. reflexivity.
      * split; [|split].
        -- intros [=].
        -- intros [(? & ? & [=])|[? [=]]].
        -- intros ? [= <-] _. split; [lia|].
           intros _. split; [done|]. eexists.
           split; [apply fd_is_new|]. done.
  - rewrite main_Faulty in Hrun. injection Hrun as <- <-.
    split; [|split].
    + done.
    + done.
    + intros ? [=].
Qed.

Lemma C7_handle_release_witness :
  (main (Dict qa_mapping) "out.json" full_disk).1 = Raise (IOError ENOSPC) /\
  open_files (main (Dict qa_mapping) "out.json" full_disk).2
    = open_files full_disk /\
  exists fd,
    trace (main (Dict qa_mapping) "out.json" full_disk).2
    = trace full_disk ++ full_run "out.json" fd (accounts_json qa_mapping).
Proof.
  split; [reflexivity|].
  destruct (C7_handle_release (Dict qa_mapping) "out.json" full_disk
              (main (Dict qa_mapping) "out.json" full_disk).1
              (main (Dict qa_mapping) "out.json" full_disk).2 eq_refl)
    as (_ & _ & H).
  destruct (H qa_mapping eq_refl eq_refl) as [Hclose _].
  apply Hclose. vm_compute. lia.
Defined.

(** C8, as stated, fails in one direction: on a full device the path can be
    opened for writing, yet the exporter fails with [IOError], which [close]
    raises when it writes out the buffer. *)
Lemma C8_io_error_on_writable_path :
  ~ (forall items output w,
       (exists e, (main (Dict items) output w).1 = Raise (IOError e)) <->
       is_Some (unwritable w !! output)).
Proof.
  intros H.
  destruct (proj1 (H qa_mapping "out.json" full_disk)) as [e He].
  - exists ENOSPC. reflexivity.
  - discriminate He.
Qed.

(** C8, amended: over a mapping that can be read, the exporter fails with
    [IOError] exactly when the output path cannot be opened for writing or
    the device has no room for the whole document; in the first case the
    error is that of [open]. An exception raised while the mapping is read
    leaves [main] as it is, before any file is touched. Nothing is caught
    and nothing is tried twice: the calls made are an initial part of open,
    write, close. *)
Theorem C8_failures m output w r w' :
  main m output w = (r, w') ->
  (forall items e, m = Dict items -> unwritable w !! output = Some e ->
     r = Raise (IOError e)) /\
  (forall items, m = Dict items ->
     ((exists e, r = Raise (IOError e)) <->
      is_Some (unwritable w !! output) \/
      free_space w + String.length (content w output)
        < String.length (accounts_json items))) /\
  (forall yielded e, m = Faulty yielded e -> r = Raise e /\ w' = w) /\
  (exists fd text calls,
     calls `prefix_of` full_run output fd text /\ trace w' = trace w ++ calls).
Proof.
  intros Hrun. destruct m as [items|yielded e].
  - rewrite main_Dict in Hrun.
    destruct (unwritable w !! output) as [e|] eqn:Hperm.
    + injection Hrun as <- <-. split; [|split; [|split]].
      * intros ? ? _ [= <-]. done.
      * intros ? _. split; [by left|by eexists].
      * intros ? ? [=].
      * exists 0, EmptyString, [SysOpen output]. split; [|done].
        by eexists.
    + destruct (decide (String.length _ <= _)) as [Hfits|Hfull];
        [|destruct (decide (whole_blocks _ _ <= _)) as [Hblocks|Hblocks]];
        injection Hrun as <- <-.
      * split; [|split; [|split]].
        -- intros ? ? _ [=].
        -- intros ? [= <-]. split; [intros [? [=]]|].
           intros [[? [=]]|?]. lia.
        -- intros ? ? [=].
        -- eexists _, _, (full_run _ _ _). split; reflexivity.
      * split; [|split; [|split]].
        -- intros ? ? _ [=].
        -- intros ? [= <-]. split; [right; lia|by eexists].
        -- intros ? ? [=].
        -- eexists _, _, (full_run _ _ _). split; reflexivity.
      * split; [|split; [|split]].
        -- intros ? ? _ [=].
        -- intros ? [= <-]. split; [right; lia|by eexists].
        -- intros ? ? [=].
        -- eexists _, _, [_; _]. split; [|done]. by eexists.
  - rewrite main_Faulty in Hrun. injection Hrun as <- <-.
    split; [|split; [|split]].
    + intros ? ? [=].
    + intros ? [=].
    + intros ? ? [= <- <-]. done.
    + exists 0, EmptyString, []. split; [|by rewrite app_nil_r].
      apply prefix_nil.
Qed.

Lemma C8_failures_witness :
  (main (Dict qa_mapping) "/etc/passwd" protected_file).1
    = Raise (IOError EACCES) /\
  ((exists e, (main (Dict qa_mapping) "out.json" full_disk).1
              = Raise (IOError e)) <->
   is_Some (unwritable full_disk !! "out.json") \/
   free_space full_disk + String.length (content full_disk "out.json")
     < String.length (accounts_json qa_mapping)) /\
  exists fd text calls,
    calls `prefix_of` full_run "/etc/passwd" fd text /\
    trace (main (Dict qa_mapping) "/etc/passwd" protected_file).2
    = trace protected_file ++ calls.
Proof.
  pose proof (C8_failures (Dict qa_mapping) "/etc/passwd" protected_file
                (main (Dict qa_mapping) "/etc/passwd" protected_file).1
                (main (Dict qa_mapping) "/etc/passwd" protected_file).2
                eq_refl) as (H1 & _ & _ & H4).
  pose proof (C8_failures (Dict qa_mapping) "out.json" full_disk
                (main (Dict qa_mapping) "out.json" full_disk).1
                (main (Dict qa_mapping) "out.json" full_disk).2
                eq_refl) as (_ & H2 & _ & _).
  split; [apply (H1 qa_mapping EACCES); reflexivity|].
  split; [exact (H2 qa_mapping eq_refl)|exact H4].
Defined.

(** ** The command line *)

Lemma help_first_app ts ts' : help_first ts -> help_first (ts ++ ts').
Proof. intros (args & rest & ->). by exists args, (rest ++ ts'). Qed.

Lemma take_actions_help_first ts ns :
  help_first ts -> argparse.take_actions ts ns = argparse.SystemExit 0.
Proof. by intros (args & rest & ->). Qed.

Lemma without_explicit_arg_help_first a ts :
  help_first ts -> never_parsed (argparse.without_explicit_arg a ts).
Proof.
  intros H. unfold argparse.without_explicit_arg.
  destruct (argparse.nargs a); cbn; [by apply help_first_app | done].
Qed.

Lemma with_explicit_arg_help_first parser e a option_string ts :
  help_first ts ->
  never_parsed (argparse.with_explicit_arg parser e a option_string ts).
Proof.
  revert a option_string ts.
  induction e as [|c e IH]; intros a option_string ts Hts; cbn;
    destruct (argparse.nargs a) as [|[|n]]; cbn;
    try (by apply help_first_app); try done;
    destruct (argparse.single_dash option_string); cbn; try done.
  destruct (argparse.lookup_option parser _) as [a'|]; cbn; [|done].
  destruct (String.eqb e EmptyString).
  - apply without_explicit_arg_help_first. by apply help_first_app.
  - apply IH. by apply help_first_app.
Qed.

Lemma consume_optional_help parser option_string explicit_arg :
  never_parsed
    (argparse.consume_optional parser
       (argparse._HelpAction, option_string, explicit_arg)).
Proof.
  assert (help_first [(argparse._HelpAction, [])]) as Hone by by eexists _, _.
  destruct explicit_arg as [e|]; cbn; [|done].
  destruct e as [|c e]; cbn;
    destruct (argparse.single_dash option_string); cbn; try done.
  destruct (argparse.lookup_option parser _) as [a'|]; cbn; [|done].
  destruct (String.eqb e EmptyString).
  - by apply without_explicit_arg_help_first.
  - by apply with_explicit_arg_help_first.
Qed.

(** A failed resolution never carries a namespace. *)
Lemma with_explicit_arg_fail parser e a option_string ts o :
  argparse.with_explicit_arg parser e a option_string ts = argparse.Fail o ->
  forall ns, o <> argparse.Namespace ns.
Proof.
  revert a option_string ts.
  induction e as [|c e IHe]; intros a option_string ts; cbn;
    destruct (argparse.nargs a) as [|[|n]]; cbn; try done;
    destruct (argparse.single_dash option_string); cbn;
    try (by intros [= <-]).
  destruct (argparse.lookup_option parser _) as [a'|]; cbn;
    [|by intros [= <-]].
  destruct (String.eqb e EmptyString); [|apply IHe].
  unfold argparse.without_explicit_arg.
  destruct (argparse.nargs a'); done.
Qed.

Lemma consume_optional_fail parser t o :
  argparse.consume_optional parser t = argparse.Fail o ->
  forall ns, o <> argparse.Namespace ns.
Proof.
  destruct t as [[a option_string] [e|]]; cbn.
  - apply with_explicit_arg_fail.
  - unfold argparse.without_explicit_arg. destruct (argparse.nargs a); done.
Qed.

Lemma consume_option parser s a option_string explicit_arg rest ns extras :
  argparse.consume parser
    ((s, argparse.O (Some a, option_string, explicit_arg)) :: rest) ns extras =
  match argparse.consume_optional parser (a, option_string, explicit_arg) with
  | argparse.Fail o => o
  | argparse.Ready action_tuples =>
      match argparse.take_actions action_tuples ns with
      | argparse.Namespace ns' => argparse.consume parser rest ns' extras
      | o => o
      end
  | argparse.WantsValue action_tuples a' =>
      match rest with
      | (value, argparse.A) :: rest' =>
          match argparse.take_actions (action_tuples ++ [(a', [value])]) ns with
          | argparse.Namespace ns' => argparse.consume parser rest' ns' extras
          | o => o
          end
      | _ => argparse.error
      end
  end.
Proof. reflexivity. Qed.

(** An argument string left over is fatal: with one, the namespace is never
    returned. *)
Lemma consume_extras parser pattern ns extras :
  extras <> [] ->
  forall ns', argparse.consume parser pattern ns extras <> argparse.Namespace ns'.
Proof.
  remember (length pattern) as n eqn:Hn.
  revert pattern ns extras Hn.
  induction (lt_wf n) as [n _ IH]. intros pattern ns extras -> Hextras ns'.
  assert (forall s : string, extras ++ [s] <> []) as Hsnoc
    by (intros s; destruct extras; done).
  destruct pattern as [|[s sym] rest].
  { destruct extras; done. }
  assert (forall ns0 extras0, extras0 <> [] ->
            argparse.consume parser rest ns0 extras0 <> argparse.Namespace ns')
    as Hrest.
  { intros ns0 extras0 H0. eapply (IH (length rest)); cbn; [lia|done|done]. }
  destruct sym as [|[[[a|] option_string] explicit_arg]|];
    try (by cbn; apply Hrest).
  rewrite consume_option.
  destruct (argparse.consume_optional _ _) as [o|ts|ts a'] eqn:Hopt.
  - by eapply consume_optional_fail.
  - destruct (argparse.take_actions ts ns); try done. by apply Hrest.
  - destruct rest as [|[value [| |]] rest']; try done.
    destruct (argparse.take_actions _ ns); try done.
    eapply (IH (length rest')); cbn; [lia|done|done].
Qed.

(** So is an argument string that is no registered option. *)
Lemma consume_unknown parser s sym rest ns extras ns' :
  match sym with argparse.O (Some _, _, _) => False | _ => True end ->
  argparse.consume parser ((s, sym) :: rest) ns extras <> argparse.Namespace ns'.
Proof.
  intros Hsym.
  assert (argparse.consume parser ((s, sym) :: rest) ns extras
          = argparse.consume parser rest ns (extras ++ [s])) as ->.
  { by destruct sym as [|[[[a|] ?] ?]|]. }
  apply consume_extras. by destruct extras.
Qed.

(** Arguments that are accepted without one that names the output option:
    there are none. *)
Lemma parse_args_without_output argv ARGS :
  argparse.parse_args PARSER argv = argparse.Namespace ARGS ->
  Forall (fun s => names_output_option s = false) argv ->
  argv = [].
Proof.
  intros Hparse Hall. destruct argv as [|s rest]; [done|]. exfalso.
  apply Forall_cons in Hall as [Hs _].
  unfold argparse.parse_args in Hparse. cbn [argparse.classify] in Hparse.
  destruct (String.eqb s "--").
  { revert Hparse. by apply consume_unknown. }
  unfold names_output_option in Hs.
  destruct (argparse._parse_optional PARSER s) as [sym|]; [|done].
  cbn [mbind option_bind] in Hparse.
  destruct (argparse.classify PARSER rest) as [pattern|]; [|done].
  cbn [mbind option_bind] in Hparse. revert Hparse.
  destruct sym as [|[[[a|] option_string] explicit_arg]|];
    try (by apply consume_unknown).
  destruct a as [|dest dflt]; [|done].
  rewrite consume_option.
  pose proof (consume_optional_help PARSER option_string explicit_arg) as Hnever.
  destruct (argparse.consume_optional _ _) as [o|ts|ts a']; cbn in Hnever.
  - intros ->. by eapply Hnever.
  - by rewrite take_actions_help_first.
  - destruct pattern as [|[value [| |]] rest']; try done.
    by rewrite take_actions_help_first by by apply help_first_app.
Qed.

Lemma lookup_option_PARSER option_string :
  argparse.lookup_option PARSER option_string =
    if String.eqb "-h" option_string then Some argparse._HelpAction
    else if String.eqb "--help" option_string then Some argparse._HelpAction
    else if String.eqb "--output" option_string
         then Some (argparse._StoreAction "output" "./aws_accounts.json")
         else None.
Proof. reflexivity. Qed.

(** C9, as stated, fails in its second half: [-h] is recognised too; it
    ends the program with status 0 and nothing is written, whereas an option
    that is not recognised ends it with status 2. *)
Lemma C9_help_is_recognized :
  ~ (forall option_string,
       is_Some (argparse.lookup_option PARSER option_string) ->
       option_string = "--output") /\
  script (Dict qa_mapping) ["-h"] empty_disk = (0%Z, empty_disk) /\
  script (Dict qa_mapping) ["--verbose"] empty_disk = (2%Z, empty_disk).
Proof.
  split; [|split; reflexivity].
  intros H. specialize (H "-h"). discriminate H. by eexists.
Qed.

(** C9, amended: invoked without arguments, the program runs [main] on
    [./aws_accounts.json]; arguments that are accepted and do not name the
    output option are no arguments at all; the options registered are
    [--output], which the script declares, and [-h] and [--help], which the
    parser adds itself. *)
Theorem C9_default_output m w :
  script m [] w =
    match main m "./aws_accounts.json" w with
    | (Return _, w') => (0%Z, w')
    | (Raise _, w') => (1%Z, w')
    end /\
  (forall items w', main (Dict items) "./aws_accounts.json" w = (Return tt, w') ->
     script (Dict items) [] w = (0%Z, w') /\
     files w' !! "./aws_accounts.json" = Some (accounts_json items)) /\
  (forall argv ARGS,
     argparse.parse_args PARSER argv = argparse.Namespace ARGS ->
     Forall (fun s => names_output_option s = false) argv ->
     argv = [] /\ ARGS = {["output" := "./aws_accounts.json"]}) /\
  (forall option_string,
     is_Some (argparse.lookup_option PARSER option_string) <->
     option_string ∈ ["-h"; "--help"; "--output"]).
Proof.
  split; [reflexivity|]. split; [|split].
  - intros items w' Hrun. split; [|by eapply main_written].
    change (script (Dict items) [] w) with
      (match main (Dict items) "./aws_accounts.json" w with
       | (Return _, w') => (0%Z, w')
       | (Raise _, w') => (1%Z, w')
       end).
    by rewrite Hrun.
  - intros argv ARGS Hparse Hall.
    pose proof (parse_args_without_output _ _ Hparse Hall) as ->.
    split; [done|]. by injection Hparse as <-.
  - intros option_string. rewrite !elem_of_cons, elem_of_nil.
    rewrite lookup_option_PARSER.
    destruct (String.eqb_spec "-h" option_string) as [<-|?].
    { split; [intros _; by left | by eexists]. }
    destruct (String.eqb_spec "--help" option_string) as [<-|?].
    { split; [intros _; by right; left | by eexists]. }
    destruct (String.eqb_spec "--output" option_string) as [<-|?].
    { split; [intros _; by right; right; left | by eexists]. }
    split; [by intros [? [=]] | by intros [->|[->|[->|[]]]]].
Qed.

(** ** Hexadecimal digits and surrogates *)

Lemma hexval_hexdigit d :
  (d < 16)%N -> reader.hexval (json.hexdigit d) = Some d.
Proof.
  intros Hd. destruct d as [|p]; [done|].
  do 4 (destruct p as [p|p|]; try done); lia.
Qed.

Lemma land_15 n : N.land n 15 = (n mod 16)%N.
Proof. apply (N.land_ones n 4). Qed.

Lemma land_1023 n : N.land n 1023 = (n mod 1024)%N.
Proof. apply (N.land_ones n 10). Qed.

Lemma nibbles n :
  (n < 65536)%N ->
  (16 * (16 * (16 * (16 * 0 + N.land (N.shiftr n 12) 15)
                + N.land (N.shiftr n 8) 15)
          + N.land (N.shiftr n 4) 15)
   + N.land n 15 = n)%N.
Proof.
  intros Hn. rewrite !land_15, !N.shiftr_div_pow2.
  replace (n / 2 ^ 12)%N with (n / 16 / 16 / 16)%N
    by (rewrite !N.Div0.div_div; reflexivity).
  replace (n / 2 ^ 8)%N with (n / 16 / 16)%N
    by (rewrite !N.Div0.div_div; reflexivity).
  change (2 ^ 4)%N with 16%N.
  pose proof (N.div_mod' n 16). pose proof (N.mod_lt n 16).
  pose proof (N.div_mod' (n / 16) 16). pose proof (N.mod_lt (n / 16) 16).
  pose proof (N.div_mod' (n / 16 / 16) 16).
  pose proof (N.mod_lt (n / 16 / 16) 16).
  pose proof (N.div_mod' (n / 16 / 16 / 16) 16).
  pose proof (N.mod_lt (n / 16 / 16 / 16) 16).
  generalize dependent (n / 16 / 16 / 16 / 16)%N.
  generalize dependent ((n / 16 / 16 / 16) mod 16)%N.
  generalize dependent (n / 16 / 16 / 16)%N.
  generalize dependent ((n / 16 / 16) mod 16)%N.
  generalize dependent (n / 16 / 16)%N.
  generalize dependent ((n / 16) mod 16)%N.
  generalize dependent (n / 16)%N.
  generalize dependent (n mod 16)%N.
  intros. lia.
Qed.

Lemma nibble_lt n : (N.land n 15 < 16)%N.
Proof. rewrite land_15. by apply N.mod_lt. Qed.

(** A number below 1024 occupies the ten low bits, which are clear in both
    surrogate bases. *)
Lemma lor_low_bits a x :
  (x < 1024)%N -> N.lor (a * 1024) x = (a * 1024 + x)%N.
Proof.
  intros Hx.
  assert (N.land (a * 1024) x = 0%N) as Hland.
  { apply N.bits_inj. intros i. rewrite N.land_spec, N.bits_0.
    change 1024%N with (2 ^ 10)%N. rewrite <- N.shiftl_mul_pow2.
    destruct (N.lt_ge_cases i 10) as [Hi|Hi].
    - by rewrite N.shiftl_spec_low.
    - rewrite andb_comm.
      destruct (N.eq_dec x 0%N) as [->|Hx0]; [by rewrite N.bits_0|].
      rewrite N.bits_above_log2; [done|].
      apply N.lt_le_trans with 10%N; [|done].
      apply N.log2_lt_pow2; [lia|done]. }
  by rewrite <- N.lxor_lor, N.add_nocarry_lxor.
Qed.

Lemma high_surrogate n :
  N.lor 55296 (N.land (N.shiftr n 10) 1023)
  = (55296 + (n / 1024) mod 1024)%N.
Proof.
  rewrite land_1023, N.shiftr_div_pow2. change (2 ^ 10)%N with 1024%N.
  apply (lor_low_bits 54). by apply N.mod_lt.
Qed.

Lemma low_surrogate n :
  N.lor 56320 (N.land n 1023) = (56320 + n mod 1024)%N.
Proof. rewrite land_1023. apply (lor_low_bits 55). by apply N.mod_lt. Qed.

(** ** The reader on the encoder's output *)

Lemma lex_String toks st a s :
  reader.lex toks st (String a s) =
    match reader.step toks st a with
    | Some (toks', st') => reader.lex toks' st' s
    | None => None
    end.
Proof. reflexivity. Qed.

Lemma lex_hex toks units count value d s :
  (d < 16)%N ->
  reader.lex toks (reader.InHex units count value)
    (String (json.hexdigit d) s) =
  if (count =? 3)%nat
  then reader.lex toks (reader.InString (units ++ [(16 * value + d)%N])) s
  else reader.lex toks (reader.InHex units (S count) (16 * value + d)%N) s.
Proof.
  intros Hd. rewrite lex_String. cbn [reader.step].
  rewrite (hexval_hexdigit d Hd). by destruct (count =? 3)%nat.
Qed.

Lemma lex_hex4 toks units n s :
  (n < 65536)%N ->
  reader.lex toks (reader.InHex units 0 0) (json.hex4 n +:+ s) =
  reader.lex toks (reader.InString (units ++ [n])) s.
Proof.
  intros Hn. unfold json.hex4. string_norm.
  rewrite !lex_hex by apply nibble_lt. cbn [Nat.eqb].
  by rewrite (nibbles n Hn).
Qed.

Lemma surrogates_small n :
  (N.lor 55296 (N.land (N.shiftr n 10) 1023) < 65536)%N /\
  (N.lor 56320 (N.land n 1023) < 65536)%N.
Proof.
  rewrite high_surrogate, low_surrogate.
  pose proof (N.mod_lt (n / 1024) 1024). pose proof (N.mod_lt n 1024). lia.
Qed.

Lemma lex_backslash_u toks units s :
  reader.lex toks (reader.InString units) (bslash +:+ "u" +:+ s) =
  reader.lex toks (reader.InHex units 0 0) s.
Proof. reflexivity. Qed.

Lemma lex_escape toks units c s :
  reader.lex toks (reader.InString units) (json.escape c +:+ s) =
  reader.lex toks (reader.InString (units ++ utf16_units c)) s.
Proof.
  unfold json.escape, utf16_units.
  destruct (json.ESCAPE_ASCII c) eqn:Hesc.
  - unfold json.replace.
    repeat match goal with
    | |- context [(c =? ?k)%N] =>
        destruct (N.eqb_spec c k) as [->|?]; [reflexivity|]
    end.
    destruct (N.ltb_spec c 65536) as [Hc|Hc].
    + rewrite !append_assoc, lex_backslash_u. by apply lex_hex4.
    + destruct (surrogates_small (c - 65536)) as [Hhi Hlo].
      rewrite !append_assoc, lex_backslash_u, (lex_hex4 _ _ _ _ Hhi).
      rewrite lex_backslash_u, (lex_hex4 _ _ _ _ Hlo).
      by rewrite <- app_assoc.
  - unfold json.ESCAPE_ASCII in Hesc.
    apply orb_false_elim in Hesc as [[H92 H34]%orb_false_elim Hrange].
    apply negb_false_iff, andb_true_iff in Hrange as [Hlo Hhi].
    apply N.eqb_neq in H92, H34. apply N.leb_le in Hlo, Hhi.
    unfold chr. string_norm. rewrite lex_String. cbn [reader.step].
    rewrite N_ascii_embedding by lia.
    rewrite (proj2 (N.eqb_neq _ _) H34), (proj2 (N.eqb_neq _ _) H92).
    rewrite (proj2 (N.leb_le _ _) Hlo).
    destruct (N.ltb_spec c 128); [|lia].
    destruct (N.ltb_spec c 65536); [done|lia].
Qed.

Lemma lex_escape_all toks units s r :
  reader.lex toks (reader.InString units) (json.escape_all s +:+ r) =
  reader.lex toks (reader.InString (units ++ (s ≫= utf16_units))) r.
Proof.
  revert units. induction s as [|c s IH]; intros units; cbn.
  - by rewrite app_nil_r.
  - by rewrite append_assoc, lex_escape, IH, <- app_assoc.
Qed.

Lemma lex_dquote_open toks s :
  reader.lex toks reader.Idle (dquote +:+ s) =
  reader.lex toks (reader.InString []) s.
Proof. reflexivity. Qed.

Lemma lex_dquote_close toks units s :
  reader.lex toks (reader.InString units) (dquote +:+ s) =
  reader.lex (toks ++ [reader.TString (reader.combine_surrogates units)])
    reader.Idle s.
Proof. reflexivity. Qed.

Lemma lex_string toks s r :
  reader.lex toks reader.Idle (json.encode_basestring_ascii s +:+ r) =
  reader.lex
    (toks ++ [reader.TString (reader.combine_surrogates (s ≫= utf16_units))])
    reader.Idle r.
Proof.
  unfold json.encode_basestring_ascii.
  by rewrite !append_assoc, lex_dquote_open, lex_escape_all, lex_dquote_close.
Qed.

(** Numbers *)

Lemma lex_digits toks negative digits d r :
  reader.lex toks (reader.InNumber negative digits)
    (NilEmpty.string_of_uint d +:+ r) =
  reader.lex toks (reader.InNumber negative (Decimal.revapp d digits)) r.
Proof.
  revert digits. induction d; intros digits; cbn [NilEmpty.string_of_uint];
    [done|..]; rewrite append_String, lex_String; cbn; apply IHd.
Qed.

Lemma lex_first_digit toks d r :
  d <> Decimal.Nil ->
  reader.lex toks reader.Idle (NilEmpty.string_of_uint d +:+ r) =
  reader.lex toks (reader.InNumber false Decimal.Nil)
    (NilEmpty.string_of_uint d +:+ r).
Proof. by destruct d. Qed.

Lemma revapp_not_nil d digits :
  d <> Decimal.Nil -> Decimal.revapp d digits <> Decimal.Nil.
Proof. intros Hd H. by apply DecimalFacts.revapp_nil_inv in H as [? _]. Qed.

Lemma number_rev negative d :
  d <> Decimal.Nil ->
  reader.number negative (Decimal.rev d) =
    Some (reader.TInt
            (Z.of_int (if negative then Decimal.Neg d else Decimal.Pos d))).
Proof.
  intros Hd. unfold reader.number.
  rewrite DecimalFacts.rev_rev.
  destruct (Decimal.rev d) eqn:Hrev; try done.
  by apply DecimalFacts.rev_nil_inv in Hrev.
Qed.

(** A number is complete at the first character that is no digit; that
    character is then read as usual. *)
Lemma lex_number_end toks negative d a r :
  d <> Decimal.Nil ->
  reader.digit a = None ->
  reader.lex toks (reader.InNumber negative (Decimal.rev d)) (String a r) =
  reader.lex
    (toks ++ [reader.TInt
                (Z.of_int (if negative then Decimal.Neg d else Decimal.Pos d))])
    reader.Idle (String a r).
Proof.
  intros Hd Ha. rewrite !lex_String. cbn [reader.step].
  by rewrite Ha, number_rev.
Qed.

Lemma lex_minus toks s :
  reader.lex toks reader.Idle (String "-" s) =
  reader.lex toks (reader.InNumber true Decimal.Nil) s.
Proof. reflexivity. Qed.

Lemma lex_int toks z a r :
  reader.digit a = None ->
  reader.lex toks reader.Idle
    (NilZero.string_of_int (Z.to_int z) +:+ String a r) =
  reader.lex (toks ++ [reader.TInt z]) reader.Idle (String a r).
Proof.
  intros Ha. rewrite <- (DecimalZ.of_to z) at 2.
  destruct z as [|p|p]; cbn [Z.to_int NilZero.string_of_int].
  - change (NilZero.string_of_uint Decimal.zero)
      with (NilEmpty.string_of_uint (Decimal.D0 Decimal.Nil)).
    rewrite lex_first_digit, lex_digits by done.
    by apply (lex_number_end _ false (Decimal.D0 Decimal.Nil)).
  - pose proof (DecimalPos.Unsigned.to_uint_nonnil p) as Hnil.
    replace (NilZero.string_of_uint (Pos.to_uint p))
      with (NilEmpty.string_of_uint (Pos.to_uint p))
      by (unfold NilZero.string_of_uint; by destruct (Pos.to_uint p)).
    rewrite lex_first_digit, lex_digits by done.
    by apply (lex_number_end _ false).
  - pose proof (DecimalPos.Unsigned.to_uint_nonnil p) as Hnil.
    replace (NilZero.string_of_uint (Pos.to_uint p))
      with (NilEmpty.string_of_uint (Pos.to_uint p))
      by (unfold NilZero.string_of_uint; by destruct (Pos.to_uint p)).
    rewrite append_String, lex_minus, lex_digits.
    by apply (lex_number_end _ true).
Qed.

Lemma lex_value toks v a r :
  reader.digit a = None ->
  reader.lex toks reader.Idle (json.encode_value v +:+ String a r) =
  reader.lex (toks ++ [token_of_value (reread v)]) reader.Idle (String a r).
Proof.
  intros Ha. destruct v as [|[|]|z|s]; cbn [json.encode_value reread token_of_value].
  - reflexivity.
  - reflexivity.
  - reflexivity.
  - by apply lex_int.
  - apply lex_string.
Qed.

Lemma lex_value_comma toks v r :
  reader.lex toks reader.Idle (json.encode_value v +:+ ", " +:+ r) =
  reader.lex (toks ++ [token_of_value (reread v)]) reader.Idle (", " +:+ r).
Proof. by apply (lex_value toks v ","%char (String " " r)). Qed.

Lemma lex_value_newline toks v r :
  reader.lex toks reader.Idle (json.encode_value v +:+ newline +:+ r) =
  reader.lex (toks ++ [token_of_value (reread v)]) reader.Idle (newline +:+ r).
Proof. by apply (lex_value toks v "010"%char r). Qed.

(** The fixed parts of an owner object. *)
Lemma lex_object_open toks s :
  reader.lex toks reader.Idle
    ("{" +:+ newline +:+ "        " +:+ dquote +:+ "id" +:+ dquote +:+ ": " +:+ s) =
  reader.lex (((toks ++ [reader.LBrace]) ++ [reader.TString (u "id")])
              ++ [reader.Colon]) reader.Idle s.
Proof. reflexivity. Qed.

Lemma lex_object_middle toks s :
  reader.lex toks reader.Idle
    (", " +:+ newline +:+ "        " +:+ dquote +:+ "name" +:+ dquote +:+ ": " +:+ s) =
  reader.lex (((toks ++ [reader.Comma]) ++ [reader.TString (u "name")])
              ++ [reader.Colon]) reader.Idle s.
Proof. reflexivity. Qed.

Lemma lex_object_close toks s :
  reader.lex toks reader.Idle (newline +:+ "    }" +:+ s) =
  reader.lex (toks ++ [reader.RBrace]) reader.Idle s.
Proof. reflexivity. Qed.

Lemma lex_object toks item r :
  reader.lex toks reader.Idle (object_text item +:+ r) =
  reader.lex (toks ++ object_tokens item) reader.Idle r.
Proof.
  unfold object_text, member_text. rewrite !append_assoc.
  rewrite lex_object_open, lex_value_comma, lex_object_middle.
  rewrite lex_value_newline, lex_object_close.
  unfold object_tokens. by rewrite <- !app_assoc.
Qed.

Lemma lex_separator toks s :
  reader.lex toks reader.Idle ((", " +:+ newline +:+ "    ") +:+ s) =
  reader.lex (toks ++ [reader.Comma]) reader.Idle s.
Proof. reflexivity. Qed.

Lemma lex_objects toks items r :
  reader.lex toks reader.Idle
    (join (", " +:+ newline +:+ "    ") (object_text <$> items) +:+ r) =
  reader.lex (toks ++ objects_tokens items) reader.Idle r.
Proof.
  revert toks. induction items as [|item items IH]; intros toks.
  - cbn. by rewrite app_nil_r.
  - destruct items as [|item' items].
    + apply lex_object.
    + change (join ?sep (object_text <$> item :: item' :: items))
        with (object_text item +:+ sep
              +:+ join sep (object_text <$> item' :: items)).
      rewrite !append_assoc, lex_object.
      rewrite <- (append_assoc ", "), <- (append_assoc (", " +:+ newline)).
      rewrite <- (append_assoc ", "), lex_separator, IH.
      change (objects_tokens (item :: item' :: items))
        with (object_tokens item ++ reader.Comma :: objects_tokens (item' :: items)).
      by rewrite <- !app_assoc.
Qed.

Lemma tokens_document items :
  reader.tokens (document_text items) = Some (document_tokens items).
Proof.
  unfold reader.tokens, document_text, document_tokens.
  destruct items as [|item items]; [done|].
  change (reader.lex [] reader.Idle
            ("[" +:+ newline +:+ "    " +:+ ?s))
    with (reader.lex [reader.LBracket] reader.Idle s).
  by rewrite lex_objects.
Qed.

(** The second pass *)

Lemma value_of_token_of_value v :
  reader.value_of_token (token_of_value v) = Some v.
Proof. by destruct v as [|[|]| |]. Qed.

Lemma parse_members objs v_id v_name toks :
  reader.parse_from (reader.ObjectOpen objs)
    ([reader.TString (u "id"); reader.Colon; token_of_value v_id;
      reader.Comma;
      reader.TString (u "name"); reader.Colon; token_of_value v_name;
      reader.RBrace] ++ toks) =
  reader.parse_from
    (reader.AfterObject (objs ++ [[(u "id", v_id); (u "name", v_name)]])) toks.
Proof. by destruct v_id as [|[|]| |], v_name as [|[|]| |]. Qed.

Lemma parse_object objs item toks :
  reader.parse_from (reader.ObjectOpen objs)
    (tail (object_tokens item) ++ toks) =
  reader.parse_from (reader.AfterObject (objs ++ [owner_record item])) toks.
Proof. apply parse_members. Qed.

Lemma parse_objects objs item items :
  reader.parse_from (reader.ObjectOpen objs)
    (tail (objects_tokens (item :: items)) ++ [reader.RBracket]) =
  Some (objs ++ (owner_record <$> item :: items)).
Proof.
  revert objs item. induction items as [|item' items IH]; intros objs item.
  - cbn [objects_tokens]. by rewrite parse_object.
  - change (objects_tokens (item :: item' :: items))
      with (object_tokens item ++ reader.Comma :: objects_tokens (item' :: items)).
    change (tail (object_tokens item ++ ?l)) with (tail (object_tokens item) ++ l).
    rewrite <- app_assoc, parse_object.
    assert (exists t ts, objects_tokens (item' :: items) = reader.LBrace :: ts
                         /\ t = ts) as (t & ts & Hts & _).
    { destruct items; eexists _, _; split; reflexivity. }
    rewrite Hts. cbn [app reader.parse_from reader.parse_step].
    change ts with (tail (reader.LBrace :: ts)). rewrite <- Hts.
    rewrite IH. cbn [fmap list_fmap]. by rewrite <- app_assoc.
Qed.

(** Reading back what the exporter writes gives, for every mapping, one
    object per entry, in the order of the entries, each with the members
    [id] and [name] and the values of the entry as they are read back. *)
Lemma loads_accounts_json items :
  reader.loads (accounts_json items) = Some (owner_record <$> items).
Proof.
  rewrite accounts_json_layout. unfold reader.loads.
  rewrite tokens_document. unfold document_tokens.
  destruct items as [|item items]; [done|].
  assert (exists ts, objects_tokens (item :: items) = reader.LBrace :: ts)
    as [ts Hts] by (destruct items; eexists; reflexivity).
  cbn [reader.parse_from reader.parse_step]. rewrite Hts.
  cbn [app reader.parse_from reader.parse_step].
  change ts with (tail (reader.LBrace :: ts)). rewrite <- Hts.
  apply (parse_objects []).
Qed.

(** ** Well-formed text is read back as it is *)

Lemma combine_surrogates_cons_scalar c units :
  (c < 55296 \/ 57344 <= c)%N ->
  reader.combine_surrogates (c :: units) = c :: reader.combine_surrogates units.
Proof.
  intros Hc. cbn [reader.combine_surrogates].
  destruct units as [|lo units]; [done|].
  destruct (N.leb_spec 55296 c); [|done].
  destruct (N.ltb_spec c 56320); [lia|done].
Qed.

Lemma combine_surrogates_pair c units :
  (65536 <= c < 1114112)%N ->
  reader.combine_surrogates (utf16_units c ++ units)
  = c :: reader.combine_surrogates units.
Proof.
  intros Hc. unfold utf16_units.
  destruct (N.ltb_spec c 65536); [lia|].
  rewrite high_surrogate, low_surrogate.
  pose proof (N.div_mod' (c - 65536) 1024) as Hdiv.
  pose proof (N.mod_lt (c - 65536) 1024) as Hmod.
  assert ((c - 65536) / 1024 < 1024)%N as Hq
    by (apply N.Div0.div_lt_upper_bound; lia).
  rewrite (N.mod_small _ _ Hq).
  cbn [app reader.combine_surrogates].
  generalize dependent ((c - 65536) mod 1024)%N.
  generalize dependent ((c - 65536) / 1024)%N. intros q Hq m Hdiv Hmod.
  destruct (N.leb_spec 55296 (55296 + q)); [|lia].
  destruct (N.ltb_spec (55296 + q) 56320); [|lia].
  destruct (N.leb_spec 56320 (56320 + m)); [|lia].
  destruct (N.ltb_spec (56320 + m) 57344); [|lia].
  cbn [andb]. f_equal. lia.
Qed.

Lemma combine_surrogates_utf16 s :
  forallb is_scalar_value s = true ->
  reader.combine_surrogates (s ≫= utf16_units) = s.
Proof.
  induction s as [|c s IH]; [done|]. cbn [forallb].
  intros [Hc Hs]%andb_true_iff. specialize (IH Hs).
  cbn [mbind list_bind].
  unfold is_scalar_value in Hc.
  apply orb_true_iff in Hc as [Hc%N.ltb_lt|[Hlo%N.leb_le Hhi%N.ltb_lt]%andb_true_iff].
  - unfold utf16_units at 1. destruct (N.ltb_spec c 65536); [|lia].
    cbn [app]. rewrite combine_surrogates_cons_scalar by lia. by rewrite IH.
  - destruct (N.lt_ge_cases c 65536).
    + unfold utf16_units at 1. destruct (N.ltb_spec c 65536); [|lia].
      cbn [app]. rewrite combine_surrogates_cons_scalar by lia. by rewrite IH.
    + rewrite combine_surrogates_pair by lia. by rewrite IH.
Qed.

Lemma reread_well_formed v : well_formed v = true -> reread v = v.
Proof.
  destruct v as [| | |s]; try done. cbn. intros Hs.
  by rewrite combine_surrogates_utf16.
Qed.

Lemma owner_record_well_formed item :
  well_formed_item item = true ->
  owner_record item = [(u "id", item.2); (u "name", item.1)].
Proof.
  intros [H1 H2]%andb_true_iff. unfold owner_record.
  by rewrite !reread_well_formed.
Qed.

(** ** The claims about the content of the array *)

Global Instance owner_inj2 : Inj2 (=) (=) (=) owner.
Proof.
  intros n1 a1 n2 a2 H. split.
  - assert (owner n1 a1 !! "name" = owner n2 a2 !! "name") as Hn by by rewrite H.
    by injection Hn.
  - assert (owner n1 a1 !! "id" = owner n2 a2 !! "id") as Hi by by rewrite H.
    by injection Hi.
Qed.

Lemma build_account_list_NoDup items :
  NoDup items -> NoDup (build_account_list items).
Proof.
  intros H. rewrite build_account_list_fmap.
  assert (Inj (=) (=) (fun e : pyval * pyval => owner e.1 e.2)).
  { intros [n1 a1] [n2 a2] Heq. cbn in Heq.
    by apply (inj2 owner) in Heq as [-> ->]. }
  by apply NoDup_fmap_2.
Qed.

Lemma owner_dom name account :
  dom (owner name account) = ({["name"; "id"]} : gset string).
Proof. unfold owner. by rewrite !dom_insert_L, dom_empty_L, union_empty_r_L. Qed.

(** C1, as stated, fails: the two entries of [astral_accounts] are distinct,
    the run returns, and the array in the file holds the same object twice.
    A code point above the basic plane and the pair of surrogates that
    stands for it are written with the same escapes, so the second object
    does not tell the name of the second entry. *)
Lemma C1_identical_objects :
  NoDup astral_accounts /\
  length astral_accounts = 2 /\
  (main (Dict astral_accounts) "out.json" empty_disk).1 = Return tt /\
  (forall item, item ∈ astral_accounts ->
     object_text item
     = object_text (PyStr [128512%N], PyStr (u "475063612724"))) /\
  exists text,
    files (main (Dict astral_accounts) "out.json" empty_disk).2 !! "out.json"
      = Some text /\
    reader.loads text
      = Some [[(u "id", PyStr (u "475063612724")); (u "name", PyStr [128512%N])];
              [(u "id", PyStr (u "475063612724")); (u "name", PyStr [128512%N])]].
Proof.
  split.
  { apply NoDup_cons. split; [|apply NoDup_singleton].
    intros [=]%list_elem_of_singleton. }
  split; [reflexivity|]. split; [reflexivity|]. split.
  - intros item [->|[->|[]%elem_of_nil]%elem_of_cons]%elem_of_cons;
      reflexivity.
  - eexists. split; [reflexivity|]. vm_compute. reflexivity.
Qed.

(** C1, amended: for every mapping with N distinct entries whose run
    returns, the text in the file is a JSON array of exactly N objects; each
    object has exactly the members [id] and [name], which hold the
    identifier and the name of the entry at the same position as they are
    read back from their encoding. When the names and identifiers are
    well-formed text, integers, booleans or [None], these are the identifier
    and the name themselves, no two objects are the same, and the objects
    are those of the entries, none left out. *)
Theorem C1_one_object_per_entry (N : nat) items output w w' :
  NoDup items ->
  length items = N ->
  main (Dict items) output w = (Return tt, w') ->
  exists text objects,
    files w' !! output = Some text /\
    reader.loads text = Some objects /\
    length objects = N /\
    Forall (fun o => o.*1 = [u "id"; u "name"]) objects /\
    Forall2 (fun item o =>
               o = [(u "id", reread item.2); (u "name", reread item.1)])
            items objects /\
    NoDup (build_account_list items) /\
    Forall2 (fun item d =>
               dom d = ({["name"; "id"]} : gset string) /\
               d !! "name" = Some item.1 /\ d !! "id" = Some item.2)
            items (build_account_list items) /\
    (forallb well_formed_item items = true ->
     NoDup objects /\
     forall o, o ∈ objects <->
       exists name account,
         (name, account) ∈ items /\ o = [(u "id", account); (u "name", name)]).
Proof.
  intros Hnodup Hlen Hrun.
  exists (accounts_json items), (owner_record <$> items).
  split; [by eapply main_written|].
  split; [apply loads_accounts_json|].
  split; [by rewrite length_fmap|].
  split; [by apply Forall_fmap, Forall_true|].
  split; [by apply Forall2_fmap_r, Forall_Forall2_diag, Forall_true|].
  split; [by apply build_account_list_NoDup|].
  split.
  { rewrite build_account_list_fmap.
    apply Forall2_fmap_r, Forall_Forall2_diag, Forall_true.
    intros [name account]. split; [apply owner_dom|done]. }
  intros Hwf.
  assert (owner_record <$> items
          = (fun item => [(u "id", item.2); (u "name", item.1)]) <$> items) as ->.
  { apply list_fmap_ext. intros i item Hi. apply owner_record_well_formed.
    rewrite forallb_forall in Hwf. apply Hwf.
    apply list_elem_of_In. by eapply list_elem_of_lookup_2. }
  split.
  - assert (Inj (=) (=) (fun item : pyval * pyval =>
                           [(u "id", item.2); (u "name", item.1)]))
      by (intros [n1 a1] [n2 a2] [= -> ->]; done).
    by apply NoDup_fmap_2.
  - intros o. rewrite list_elem_of_fmap. split.
    + intros ([name account] & -> & Hin). by exists name, account.
    + intros (name & account & Hin & ->). by exists (name, account).
Qed.

Lemma C1_one_object_per_entry_witness :
  exists text objects,
    files (main (Dict three_accounts) "out.json" empty_disk).2 !! "out.json"
      = Some text /\
    reader.loads text = Some objects /\
    length objects = 3 /\
    Forall (fun o => o.*1 = [u "id"; u "name"]) objects /\
    Forall2 (fun item o =>
               o = [(u "id", reread item.2); (u "name", reread item.1)])
            three_accounts objects /\
    NoDup objects /\
    forall o, o ∈ objects <->
      exists name account,
        (name, account) ∈ three_accounts /\
        o = [(u "id", account); (u "name", name)].
Proof.
  destruct (C1_one_object_per_entry 3 three_accounts "out.json" empty_disk
              (main (Dict three_accounts) "out.json" empty_disk).2)
    as (text & objects & H1 & H2 & H3 & H4 & H5 & _ & _ & Hwf).
  - apply NoDup_cons. split.
    { intros [[=]|[[=]|[]%elem_of_nil]%elem_of_cons]%elem_of_cons. }
    apply NoDup_cons. split; [|apply NoDup_singleton].
    intros [=]%list_elem_of_singleton.
  - reflexivity.
  - reflexivity.
  - destruct (Hwf eq_refl) as [H6 H7].
    exists text, objects. split; [exact H1|]. split; [exact H2|].
    split; [exact H3|]. split; [exact H4|]. split; [exact H5|].
    split; [exact H6|exact H7].
Defined.

(** C5: the objects of the written array stand in the order in which
    iterating the mapping yields its pairs: the list that [main] builds
    holds at every position the owner of the pair at that position, the text
    is the join of the object texts in that order, and the object read back
    at position [i] is the record of the [i]-th pair. *)
Theorem C5_iteration_order items output w w' :
  main (Dict items) output w = (Return tt, w') ->
  (forall i, build_account_list items !! i
             = (fun e => owner e.1 e.2) <$> items !! i) /\
  exists text objects,
    files w' !! output = Some text /\
    text = document_text items /\
    reader.loads text = Some objects /\
    length objects = length items /\
    forall i, objects !! i = owner_record <$> items !! i.
Proof.
  intros Hrun. split.
  - intros i. by rewrite build_account_list_fmap, list_lookup_fmap.
  - exists (accounts_json items), (owner_record <$> items).
    split; [by eapply main_written|].
    split; [apply accounts_json_layout|].
    split; [apply loads_accounts_json|].
    split; [by rewrite length_fmap|].
    intros i. by rewrite list_lookup_fmap.
Qed.

Lemma C5_iteration_order_witness :
  exists text objects,
    files (main (Dict three_accounts) "out.json" empty_disk).2 !! "out.json"
      = Some text /\
    text = document_text three_accounts /\
    reader.loads text = Some objects /\
    length objects = 3 /\
    objects !! 0
      = Some [(u "id", PyStr (u "475063612724")); (u "name", PyStr (u "qa"))] /\
    objects !! 1
      = Some [(u "id", PyStr (u "123456789012")); (u "name", PyStr (u "dev"))] /\
    objects !! 2
      = Some [(u "id", PyStr (u "210987654321")); (u "name", PyStr (u "prod"))].
Proof.
  destruct (C5_iteration_order three_accounts "out.json" empty_disk
              (main (Dict three_accounts) "out.json" empty_disk).2 eq_refl)
    as (_ & text & objects & H1 & H2 & H3 & H4 & H5).
  exists text, objects. split; [exact H1|]. split; [exact H2|].
  split; [exact H3|]. split; [exact H4|].
  split; [exact (H5 0)|]. split; [exact (H5 1)|exact (H5 2)].
Defined.

(** C10: two runs over mappings that yield the same sequence of pairs, in
    whatever worlds and to whatever paths, leave the same text, which is a
    function of that sequence alone; the identifier of every pair is the
    value under [id] in its owner, is written by the encoder for values
    without any change made by the exporter, and well-formed identifiers are
    read back from the file as they were; whether a run returns does not
    depend on the identifiers beyond the length of the text. *)
Theorem C10_deterministic_output items output1 output2 w1 w2 w1' w2' :
  main (Dict items) output1 w1 = (Return tt, w1') ->
  main (Dict items) output2 w2 = (Return tt, w2') ->
  files w1' !! output1 = files w2' !! output2 /\
  files w1' !! output1 = Some (accounts_json items) /\
  (forall i name account, items !! i = Some (name, account) ->
     (build_account_list items !! i) ≫= (fun d => d !! "id") = Some account /\
     exists objects o,
       reader.loads (accounts_json items) = Some objects /\
       objects !! i = Some o /\
       o !! 0 = Some (u "id", reread account) /\
       (well_formed account = true -> o !! 0 = Some (u "id", account))) /\
  (forall items', String.length (accounts_json items')
                  <= String.length (accounts_json items) ->
     exists w'', main (Dict items') output1 w1 = (Return tt, w'')).
Proof.
  intros Hrun1 Hrun2.
  pose proof (main_written _ _ _ _ Hrun1) as H1.
  pose proof (main_written _ _ _ _ Hrun2) as H2.
  split; [by rewrite H1, H2|]. split; [done|]. split.
  - intros i name account Hi. split.
    + by rewrite build_account_list_fmap, list_lookup_fmap, Hi.
    + exists (owner_record <$> items), (owner_record (name, account)).
      split; [apply loads_accounts_json|].
      split; [by rewrite list_lookup_fmap, Hi|].
      split; [done|]. intros Hwf. cbn. by rewrite reread_well_formed.
  - intros items' Hlen.
    apply main_returns in Hrun1 as (Hperm & Hfits & _).
    rewrite main_Dict, Hperm.
    destruct (decide _) as [?|Hno]; [by eexists|]. lia.
Qed.

Lemma C10_deterministic_output_witness :
  files (main (Dict qa_mapping) "a.json" empty_disk).2 !! "a.json"
  = files (main (Dict qa_mapping) "/tmp/b.json" protected_file).2 !! "/tmp/b.json".
Proof.
  apply (C10_deterministic_output qa_mapping "a.json" "/tmp/b.json"
           empty_disk protected_file); reflexivity.
Defined.

(** * Further properties of the script *)

(** ** The output option *)

Lemma classify_cons s rest :
  s <> "--" ->
  argparse.classify PARSER (s :: rest) =
    sym ← argparse._parse_optional PARSER s;
    pattern ← argparse.classify PARSER rest;
    Some ((s, sym) :: pattern).
Proof.
  intros Hs. cbn [argparse.classify].
  by destruct (String.eqb_spec s "--").
Qed.

Lemma parse_optional_output :
  argparse._parse_optional PARSER "--output"
  = Some (argparse.O (Some output_action, "--output", None)).
Proof. reflexivity. Qed.

(** A string that does not begin with a dash is an argument. *)
Lemma parse_optional_plain path :
  String.get 0 path <> Some "-"%char ->
  argparse._parse_optional PARSER path = Some argparse.A /\ path <> "--".
Proof.
  intros Hc. split; [|by intros ->].
  destruct path as [|c s]; [done|]. unfold argparse._parse_optional.
  by destruct (Ascii.eqb_spec c "-") as [->|].
Qed.

Lemma take_actions_store value ns :
  value <> "--" ->
  argparse.take_actions [(output_action, [value])] ns
  = argparse.Namespace (<["output" := value]> ns).
Proof.
  intros Hv. cbn. rewrite decide_True by done. reflexivity.
Qed.

Lemma classify_output_args paths tail :
  Forall (fun path => String.get 0 path <> Some "-"%char) paths ->
  argparse.classify PARSER (output_args paths ++ tail) =
    pattern ← argparse.classify PARSER tail;
    Some (output_pattern paths ++ pattern).
Proof.
  induction 1 as [|path paths Hpath _ IH].
  { cbn [output_args output_pattern mbind list_bind app].
    by destruct (argparse.classify PARSER tail). }
  destruct (parse_optional_plain path Hpath) as [HA Hdd].
  change (output_args (path :: paths) ++ tail)
    with ("--output" :: path :: (output_args paths ++ tail)).
  rewrite classify_cons by done. rewrite parse_optional_output.
  rewrite classify_cons by done. rewrite HA, IH.
  by destruct (argparse.classify PARSER tail).
Qed.

Lemma consume_output_pattern paths rest ns :
  Forall (fun path => String.get 0 path <> Some "-"%char) paths ->
  argparse.consume PARSER (output_pattern paths ++ rest) ns []
  = argparse.consume PARSER rest
      (foldl (fun ns path => <["output" := path]> ns) ns paths) [].
Proof.
  intros Hall. revert ns.
  induction Hall as [|path paths Hpath _ IH]; intros ns; [done|].
  destruct (parse_optional_plain path Hpath) as [_ Hdd].
  change (output_pattern (path :: paths) ++ rest)
    with (("--output", argparse.O (Some output_action, "--output", None))
            :: (path, argparse.A) :: (output_pattern paths ++ rest)).
  rewrite consume_option.
  cbn [argparse.consume_optional argparse.without_explicit_arg argparse.nargs
       output_action app foldl].
  rewrite (take_actions_store path ns Hdd). apply IH.
Qed.

Lemma last_cons {A} (a d : A) l : List.last (a :: l) d = List.last l a.
Proof.
  revert a d. induction l as [|b l IH]; intros a d; [done|].
  change (List.last (a :: b :: l) d) with (List.last (b :: l) d).
  by rewrite !IH.
Qed.

Lemma foldl_output paths (ns : gmap string string) d :
  ns !! "output" = Some d ->
  foldl (fun ns path => <["output" := path]> ns) ns paths !! "output"
  = Some (List.last paths d).
Proof.
  revert ns d. induction paths as [|path paths IH]; intros ns d Hd; [done|].
  cbn [foldl]. rewrite last_cons. apply IH, lookup_insert_eq.
Qed.

(** X1: when the output option is given any number of times, each time
    followed by a path that does not begin with a dash, the program runs
    [main] on the last of the paths, and on [./aws_accounts.json] when the
    option is not given; the exit status is 0 if [main] returns and 1 if it
    raises. *)
Theorem X1_last_output_path_is_used m paths w :
  Forall (fun path => String.get 0 path <> Some "-"%char) paths ->
  script m (output_args paths) w
  = exits (main m (List.last paths "./aws_accounts.json") w).
Proof.
  intros Hall. unfold script, argparse.parse_args.
  rewrite <- (app_nil_r (output_args paths)).
  rewrite (classify_output_args paths [] Hall).
  cbn [argparse.classify mbind option_bind].
  rewrite (consume_output_pattern paths [] _ Hall).
  cbn [argparse.consume].
  by rewrite (foldl_output paths _ "./aws_accounts.json").
Qed.

Lemma X1_last_output_path_is_used_witness :
  script (Dict qa_mapping) ["--output"; "a.json"; "--output"; "b.json"] empty_disk
  = exits (main (Dict qa_mapping) "b.json" empty_disk).
Proof.
  apply (X1_last_output_path_is_used (Dict qa_mapping) ["a.json"; "b.json"]).
  repeat constructor; discriminate.
Defined.

Lemma split_eq_lookup arg_string :
  (exists a o e,
     ('(option_string, explicit_arg) ← argparse.split_eq arg_string;
      a ← argparse.lookup_option PARSER option_string;
      Some (argparse.O (Some a, option_string, Some explicit_arg)))
     = Some (argparse.O (Some a, o, Some e))) \/
  ('(option_string, explicit_arg) ← argparse.split_eq arg_string;
   a ← argparse.lookup_option PARSER option_string;
   Some (argparse.O (Some a, option_string, Some explicit_arg))) = None.
Proof.
  destruct (argparse.split_eq arg_string) as [[o e]|]; [|by right].
  cbn [mbind option_bind].
  destruct (argparse.lookup_option PARSER o) as [a|]; [|by right].
  left. by exists a, o, e.
Qed.

(** A string of two characters or more that begins with a dash, is no
    negative number and has no space in it, is never taken as an argument:
    it is an option string, known or not, or an ambiguous abbreviation. *)
Lemma parse_optional_dash path :
  String.get 0 path = Some "-"%char ->
  path <> "-" ->
  argparse._negative_number_matcher path = false ->
  argparse.contains " " path = false ->
  argparse._parse_optional PARSER path <> Some argparse.A.
Proof.
  intros Hdash Hone Hneg Hspace.
  destruct path as [|c s]; [done|]. injection Hdash as ->.
  unfold argparse._parse_optional.
  change (negb (Ascii.eqb "-" "-")) with false. cbv iota.
  destruct (argparse.lookup_option PARSER (String "-" s)); [done|].
  destruct s as [|c s]; [done|].
  change (String.length (String "-" (String c s)) =? 1)%nat with false.
  cbv iota.
  destruct (split_eq_lookup (String "-" (String c s))) as [[a [o [e ->]]]| ->];
    [done|].
  destruct (argparse._get_option_tuples PARSER _) as [|t [|t' l]]; try done.
  by rewrite Hneg, Hspace.
Qed.

(** X2: a value for the output option that begins with a dash (and is not
    the single dash, a negative number or a string with a space in it) is
    not taken as the path: the program ends with status 2 and nothing is
    opened or written. *)
Theorem X2_option_like_value_is_refused m path w :
  String.get 0 path = Some "-"%char ->
  path <> "-" ->
  argparse._negative_number_matcher path = false ->
  argparse.contains " " path = false ->
  script m ["--output"; path] w = (2%Z, w).
Proof.
  intros Hdash Hone Hneg Hspace.
  pose proof (parse_optional_dash path Hdash Hone Hneg Hspace) as Hsym.
  unfold script, argparse.parse_args.
  rewrite classify_cons by done. rewrite parse_optional_output.
  destruct (decide (path = "--")) as [->|Hdd]; [reflexivity|].
  rewrite classify_cons by done.
  destruct (argparse._parse_optional PARSER path) as [[|t|]|]; done.
Qed.

Lemma X2_option_like_value_is_refused_witness :
  script (Dict qa_mapping) ["--output"; "-v"] empty_disk = (2%Z, empty_disk).
Proof. by apply X2_option_like_value_is_refused. Defined.

Lemma parse_optional_attached path :
  argparse._parse_optional PARSER ("--output=" +:+ path)
  = Some (argparse.O (Some output_action, "--output", Some path))
  /\ "--output=" +:+ path <> "--".
Proof. split; [reflexivity|discriminate]. Qed.

Lemma with_explicit_arg_store parser explicit_arg option_string action_tuples :
  argparse.with_explicit_arg parser explicit_arg output_action option_string
    action_tuples
  = argparse.Ready (action_tuples ++ [(output_action, [explicit_arg])]).
Proof. by destruct explicit_arg. Qed.

(** X3: the path can be attached to the option with an equals sign: given
    [--output=PATH], the program runs [main] on the path, which may be
    empty; the one path that cannot be given this way is the double dash. *)
Theorem X3_attached_output_path m path w :
  path <> "--" ->
  script m ["--output=" +:+ path] w = exits (main m path w).
Proof.
  intros Hdd. destruct (parse_optional_attached path) as [Hsym Hne].
  unfold script, argparse.parse_args.
  rewrite classify_cons by done. rewrite Hsym.
  cbn [argparse.classify mbind option_bind]. rewrite consume_option.
  cbn [argparse.consume_optional]. rewrite with_explicit_arg_store.
  cbn [app]. rewrite (take_actions_store path _ Hdd).
  cbn [argparse.consume]. by rewrite lookup_insert_eq.
Qed.

Lemma X3_attached_output_path_witness :
  script (Dict qa_mapping) ["--output=/tmp/accounts.json"] empty_disk
  = exits (main (Dict qa_mapping) "/tmp/accounts.json" empty_disk).
Proof.
  by apply (X3_attached_output_path (Dict qa_mapping) "/tmp/accounts.json").
Defined.





(** X5: the program takes no positional argument. When the first argument
    does not begin with a dash, [main] is not run, whatever follows on the
    command line: nothing is opened or written. *)
Theorem X5_no_positional_argument m arg rest w :
  String.get 0 arg <> Some "-"%char ->
  (forall ARGS, argparse.parse_args PARSER (arg :: rest) <> argparse.Namespace ARGS) /\
  (script m (arg :: rest) w).2 = w.
Proof.
  intros Harg. destruct (parse_optional_plain arg Harg) as [HA Hdd].
  assert (forall ARGS,
             argparse.parse_args PARSER (arg :: rest) <> argparse.Namespace ARGS)
    as Hnever.
  { intros ARGS. unfold argparse.parse_args.
    rewrite classify_cons by done. rewrite HA. cbn [mbind option_bind].
    destruct (argparse.classify PARSER rest) as [pattern|]; [|done].
    cbn [mbind option_bind]. by apply consume_unknown. }
  split; [done|]. unfold script.
  destruct (argparse.parse_args PARSER (arg :: rest)) as [ARGS| |] eqn:Hparse;
    [|done|done].
  by destruct (Hnever ARGS).
Qed.

Lemma X5_no_positional_argument_witness :
  (forall ARGS,
      argparse.parse_args PARSER ["accounts.json"; "--output"; "a.json"]
      <> argparse.Namespace ARGS) /\
  (script (Dict qa_mapping) ["accounts.json"; "--output"; "a.json"] empty_disk).2
  = empty_disk.
Proof.
  apply (X5_no_positional_argument (Dict qa_mapping) "accounts.json").
  discriminate.
Defined.

(** X6: the output option needs a value. When the command line ends
    with [--output] and nothing after it, the program ends with status 2
    and nothing is opened or written, also when the option was given with a
    path before. *)
Theorem X6_missing_value m paths w :
  Forall (fun path => String.get 0 path <> Some "-"%char) paths ->
  script m (output_args paths ++ ["--output"]) w = (2%Z, w).
Proof.
  intros Hall. unfold script, argparse.parse_args.
  rewrite (classify_output_args paths _ Hall).
  change (argparse.classify PARSER ["--output"])
    with (Some [("--output",
                 argparse.O (Some output_action, "--output", None))]).
  cbn [mbind option_bind].
  by rewrite (consume_output_pattern paths _ _ Hall).
Qed.

Lemma X6_missing_value_witness :
  script (Dict qa_mapping) ["--output"; "a.json"; "--output"] empty_disk
  = (2%Z, empty_disk).
Proof.
  apply (X6_missing_value (Dict qa_mapping) ["a.json"]).
  repeat constructor; discriminate.
Defined.

(** X7: help comes first. When a help option, in full or abbreviated,
    follows any number of output options, the program does not run [main]
    and nothing is opened or written, whatever comes after the help option:
    it ends with status 0, or with status 2 when a later argument is an
    ambiguous abbreviation. *)
Theorem X7_help_comes_first m paths h rest w :
  Forall (fun path => String.get 0 path <> Some "-"%char) paths ->
  h ∈ help_strings ->
  script m (output_args paths ++ h :: rest) w
  = (match argparse.classify PARSER rest with Some _ => 0%Z | None => 2%Z end,
     w).
Proof.
  intros Hall Hh. unfold script, argparse.parse_args.
  rewrite (classify_output_args paths _ Hall).
  assert (exists option_string,
             argparse._parse_optional PARSER h
             = Some (argparse.O (Some argparse._HelpAction, option_string, None))
             /\ h <> "--") as (option_string & Hsym & Hdd).
  { unfold help_strings in Hh.
    repeat (apply elem_of_cons in Hh as [->|Hh]; [by eexists|]).
    by apply elem_of_nil in Hh. }
  rewrite classify_cons by done. rewrite Hsym. cbn [mbind option_bind].
  destruct (argparse.classify PARSER rest) as [pattern|]; [|done].
  cbn [mbind option_bind].
  by rewrite (consume_output_pattern paths _ _ Hall), consume_option.
Qed.

Lemma X7_help_comes_first_witness :
  script (Dict qa_mapping) ["--output"; "a.json"; "--help"; "--output"; "b.json"]
    empty_disk
  = (0%Z, empty_disk).
Proof.
  apply (X7_help_comes_first (Dict qa_mapping) ["a.json"] "--help"
           ["--output"; "b.json"] empty_disk).
  - repeat constructor; discriminate.
  - unfold help_strings. repeat constructor.
Defined.

(** ** What a run does to the file system *)

(** X8: a run of [main], however it ends, changes no file other than the
    one at the output path; it changes nothing about which paths can be
    opened, and every file object that was open before is still open. *)
Theorem X8_only_the_output_file_changes m output w :
  (forall path, path <> output ->
     files (main m output w).2 !! path = files w !! path) /\
  unwritable (main m output w).2 = unwritable w /\
  (forall fd path, open_files w !! fd = Some path ->
     open_files (main m output w).2 !! fd = Some path).
Proof.
  destruct m as [items|yielded e]; [|by rewrite main_Faulty].
  rewrite main_Dict. destruct (unwritable w !! output); [done|].
  destruct (decide _); [|destruct (decide _)]; cbn.
  - split; [|done]. intros path Hpath. by apply lookup_insert_ne.
  - split; [|done]. intros path Hpath. by apply lookup_insert_ne.
  - split; [|split; [done|]].
    + intros path Hpath. by apply lookup_insert_ne.
    + intros fd path Hfd. rewrite lookup_insert_ne; [done|].
      intros <-. by rewrite fd_is_new in Hfd.
Qed.

Lemma X8_only_the_output_file_changes_witness :
  files (main (Dict qa_mapping) "a.json" protected_file).2 !! "/etc/passwd"
  = files protected_file !! "/etc/passwd".
Proof.
  apply (proj1 (X8_only_the_output_file_changes (Dict qa_mapping) "a.json"
                  protected_file)).
  discriminate.
Defined.

(** X9: running [main] again after a run that returned succeeds as well,
    and leaves every file, the free space and the open file objects exactly
    as the first run left them: the file is replaced, not appended to. *)
Theorem X9_second_run_changes_nothing items output w w1 :
  main (Dict items) output w = (Return tt, w1) ->
  exists w2,
    main (Dict items) output w1 = (Return tt, w2) /\
    files w2 = files w1 /\
    free_space w2 = free_space w1 /\
    open_files w2 = open_files w1.
Proof.
  intros (Hperm & Hfits & ->)%main_returns.
  match goal with |- context [main _ _ ?w1] =>
    assert (content w1 output = accounts_json items) as Hcontent
      by (unfold content; cbn [files]; by rewrite lookup_insert_eq)
  end.
  rewrite main_Dict, !Hcontent.
  cbn [unwritable free_space files open_files trace].
  rewrite Hperm, decide_True by lia.
  eexists. split; [reflexivity|]. cbn [files free_space open_files].
  split; [apply insert_insert_eq|]. split; [lia|done].
Qed.

Lemma X9_second_run_changes_nothing_witness :
  exists w2,
    main (Dict qa_mapping) "a.json" (main (Dict qa_mapping) "a.json" empty_disk).2
    = (Return tt, w2) /\
    files w2 = files (main (Dict qa_mapping) "a.json" empty_disk).2 /\
    free_space w2 = free_space (main (Dict qa_mapping) "a.json" empty_disk).2 /\
    open_files w2 = open_files (main (Dict qa_mapping) "a.json" empty_disk).2.
Proof.
  apply (X9_second_run_changes_nothing qa_mapping "a.json" empty_disk).
  reflexivity.
Defined.

(** X10: there is no rollback. When the path can be opened and the device
    has no room for the whole document, [main] raises [IOError]; the file
    at the output path then holds what did fit, a beginning of the document
    that is shorter than the document, and its previous content is gone. *)
Theorem X10_failed_write_leaves_a_partial_file items output w :
  unwritable w !! output = None ->
  free_space w + String.length (content w output)
    < String.length (accounts_json items) ->
  exists w' part,
    main (Dict items) output w = (Raise (IOError ENOSPC), w') /\
    files w' !! output = Some part /\
    String.prefix part (accounts_json items) = true /\
    String.length part = free_space w + String.length (content w output) /\
    free_space w' = 0.
Proof.
  intros Hperm Hroom. rewrite main_Dict, Hperm.
  rewrite decide_False by lia.
  destruct (decide _); (eexists _, _; split; [reflexivity|]); cbn;
    (split; [apply lookup_insert_eq|]);
    (split; [apply substring_0_prefix|]);
    (split; [apply substring_0_length; lia|done]).
Qed.

Lemma X10_failed_write_leaves_a_partial_file_witness :
  exists w' part,
    main (Dict qa_mapping) "a.json" nearly_full_disk
    = (Raise (IOError ENOSPC), w') /\
    files w' !! "a.json" = Some part /\
    String.prefix part (accounts_json qa_mapping) = true /\
    String.length part
    = free_space nearly_full_disk
      + String.length (content nearly_full_disk "a.json") /\
    free_space w' = 0.
Proof.
  apply (X10_failed_write_leaves_a_partial_file qa_mapping "a.json"
           nearly_full_disk).
  - reflexivity.
  - vm_compute. lia.
Defined.

(** ** The exit status *)

(** An argument string that got the symbol of an option is one of the
    arguments, and [_parse_optional] gave it that symbol. *)
Lemma classify_option parser argv pattern s t :
  argparse.classify parser argv = Some pattern ->
  (s, argparse.O t) ∈ pattern ->
  s ∈ argv /\ argparse._parse_optional parser s = Some (argparse.O t).
Proof.
  revert pattern. induction argv as [|s0 rest IH]; intros pattern.
  { intros [= <-] Hin. by apply elem_of_nil in Hin. }
  cbn [argparse.classify]. destruct (String.eqb s0 "--").
  - intros [= <-] [[=]|Hin]%elem_of_cons.
    apply list_elem_of_fmap in Hin as (? & [=] & _).
  - destruct (argparse._parse_optional parser s0) as [sym|] eqn:Hsym; [|done].
    cbn [mbind option_bind].
    destruct (argparse.classify parser rest) as [pattern'|]; [|done].
    cbn [mbind option_bind]. intros [= <-] [[= -> ->]|Hin]%elem_of_cons.
    + split; [apply list_elem_of_here|done].
    + destruct (IH pattern' eq_refl Hin) as [Hrest Hopt].
      split; [by apply list_elem_of_further|done].
Qed.

(** The parser ends the program with status 0 only for the help option. *)
Lemma consume_exit_0 parser pattern ns extras :
  argparse.consume parser pattern ns extras = argparse.SystemExit 0 ->
  exists s option_string explicit_arg,
    (s, argparse.O (Some argparse._HelpAction, option_string, explicit_arg))
    ∈ pattern.
Proof.
  remember (length pattern) as n eqn:Hn.
  revert pattern ns extras Hn.
  induction (lt_wf n) as [n _ IH]. intros pattern ns extras ->.
  destruct pattern as [|[s sym] rest].
  { destruct extras; done. }
  assert (forall ns0 extras0,
            argparse.consume parser rest ns0 extras0 = argparse.SystemExit 0 ->
            exists s' option_string explicit_arg,
              (s', argparse.O (Some argparse._HelpAction, option_string,
                               explicit_arg)) ∈ (s, sym) :: rest) as Hrest.
  { intros ns0 extras0 H0.
    destruct (IH (length rest) ltac:(cbn; lia) rest ns0 extras0 eq_refl H0)
      as (s' & o' & e' & Hin).
    exists s', o', e'. by apply list_elem_of_further. }
  destruct sym as [|[[[a|] option_string] explicit_arg]|];
    try (by cbn; apply Hrest).
  destruct a as [|dest dflt].
  { intros _. eexists _, _, _. apply list_elem_of_here. }
  rewrite consume_option.
  destruct explicit_arg as [e|]; cbn [argparse.consume_optional].
  - assert (argparse.with_explicit_arg parser e (argparse._StoreAction dest dflt)
              option_string []
            = argparse.Ready [(argparse._StoreAction dest dflt, [e])]) as ->
      by by destruct e.
    cbn [argparse.take_actions].
    destruct (filter _ [e]) as [|v [|]]; try done.
    by apply Hrest.
  - cbn [argparse.without_explicit_arg argparse.nargs app].
    destruct rest as [|[value [| |]] rest']; try done.
    cbn [argparse.take_actions].
    destruct (filter _ [value]) as [|v [|]]; try done.
    intros H0.
    destruct (IH (length rest') ltac:(cbn; lia) rest' _ extras eq_refl H0)
      as (s' & o' & e' & Hin).
    exists s', o', e'. by do 2 apply list_elem_of_further.
Qed.

Lemma parse_args_exit_0 argv :
  argparse.parse_args PARSER argv = argparse.SystemExit 0 ->
  exists arg, arg ∈ argv /\ names_help_option arg = true.
Proof.
  unfold argparse.parse_args.
  destruct (argparse.classify PARSER argv) as [pattern|] eqn:Hclassify; [|done].
  intros (s & option_string & explicit_arg & Hin)%consume_exit_0.
  destruct (classify_option _ _ _ _ _ Hclassify Hin) as [Harg Hsym].
  exists s. split; [done|]. unfold names_help_option. by rewrite Hsym.
Qed.

(** X11: the exit status 0 can be trusted. When the program ends with
    status 0, either the parser ended it for an argument that names the
    help option, and nothing was touched; or the arguments were accepted,
    the mapping was a proper one and the file at the path given holds the
    whole document, with no file object left open. *)
Theorem X11_status_zero m argv w w' :
  script m argv w = (0%Z, w') ->
  match argparse.parse_args PARSER argv with
  | argparse.SystemExit code =>
      code = 0%Z /\ w' = w /\
      exists arg, arg ∈ argv /\ names_help_option arg = true
  | argparse.Namespace ARGS =>
      exists items,
        m = Dict items /\
        files w' !! default EmptyString (ARGS !! "output")
          = Some (accounts_json items) /\
        open_files w' = open_files w
  | argparse.Uncaught _ => False
  end.
Proof.
  unfold script.
  destruct (argparse.parse_args PARSER argv) as [ARGS|code|e] eqn:Hparse.
  - destruct m as [items|yielded e]; [|by rewrite main_Faulty].
    destruct (main (Dict items) _ w) as [[[]|e] w1] eqn:Hmain; [|done].
    intros [= ->]. exists items. split; [done|].
    split; [by eapply main_written|].
    by apply main_returns in Hmain as (_ & _ & ->).
  - intros [= -> ->]. split; [done|]. split; [done|].
    by apply parse_args_exit_0.
  - done.
Qed.

Lemma X11_status_zero_witness :
  (exists items,
      Dict three_accounts = Dict items /\
      files (script (Dict three_accounts) ["--output"; "a.json"] empty_disk).2
        !! "a.json" = Some (accounts_json items) /\
      open_files (script (Dict three_accounts) ["--output"; "a.json"] empty_disk).2
      = open_files empty_disk) /\
  (script (Dict three_accounts) ["--output"; "a.json"; "-h"] empty_disk).2
    = empty_disk /\
  exists arg,
    arg ∈ ["--output"; "a.json"; "-h"] /\ names_help_option arg = true.
Proof.
  split.
  - exact (X11_status_zero (Dict three_accounts) ["--output"; "a.json"]
             empty_disk _ eq_refl).
  - exact (proj2 (X11_status_zero (Dict three_accounts)
                    ["--output"; "a.json"; "-h"] empty_disk _ eq_refl)).
Defined.

(** ** The document as a text *)

(** X12: the document determines the mapping. Two sequences of entries whose
    names and identifiers are well-formed text (or numbers, booleans or
    [None]) and that give the same document are the same sequence. *)
Theorem X12_document_determines_entries items1 items2 :
  forallb well_formed_item items1 = true ->
  forallb well_formed_item items2 = true ->
  accounts_json items1 = accounts_json items2 ->
  items1 = items2.
Proof.
  intros H1 H2 Htext.
  pose proof (loads_accounts_json items1) as Hloads.
  rewrite Htext, loads_accounts_json in Hloads. injection Hloads as Hrecords.
  clear Htext. revert items2 H1 H2 Hrecords.
  induction items1 as [|[n1 a1] items1 IH]; intros [|[n2 a2] items2]; try done.
  cbn [forallb fmap list_fmap].
  intros [Hi1 H1]%andb_true_iff [Hi2 H2]%andb_true_iff.
  rewrite (owner_record_well_formed _ Hi1), (owner_record_well_formed _ Hi2).
  cbn [fst snd]. intros [= <- <- Hrest]. f_equal. apply IH; done.
Qed.

Lemma X12_document_determines_entries_witness :
  forallb well_formed_item qa_mapping = true /\
  qa_mapping = [(PyStr (u "qa"), PyStr (u "475063612724"))].
Proof.
  split; [reflexivity|].
  apply (X12_document_determines_entries qa_mapping
           [(PyStr (u "qa"), PyStr (u "475063612724"))]); reflexivity.
Defined.

Lemma all_chars_app P s t :
  all_chars P (s +:+ t) = all_chars P s && all_chars P t.
Proof.
  induction s as [|c s IH]; [done|].
  rewrite append_String. cbn. by rewrite IH, andb_assoc.
Qed.

Lemma all_chars_impl (P Q : ascii -> bool) s :
  (forall a, P a = true -> Q a = true) ->
  all_chars P s = true -> all_chars Q s = true.
Proof.
  intros HPQ. induction s as [|c s IH]; [done|]. cbn.
  intros [Hc Hs]%andb_true_iff. by rewrite (HPQ c Hc), IH.
Qed.

Lemma all_chars_join P sep chunks :
  all_chars P sep = true ->
  Forall (fun s => all_chars P s = true) chunks ->
  all_chars P (join sep chunks) = true.
Proof.
  intros Hsep. induction 1 as [|s chunks Hs Hall IH]; [done|].
  destruct chunks as [|s' chunks]; [done|].
  change (join sep (s :: s' :: chunks))
    with (s +:+ sep +:+ join sep (s' :: chunks)).
  by rewrite !all_chars_app, Hs, Hsep, IH.
Qed.

Lemma printable_hexdigit d : printable (json.hexdigit d) = true.
Proof.
  destruct d as [|p]; [done|].
  do 4 (try destruct p as [p|p|]); reflexivity.
Qed.

Lemma printable_hex4 n : all_chars printable (json.hex4 n) = true.
Proof. unfold json.hex4. cbn. by rewrite !printable_hexdigit. Qed.

Lemma printable_replace c : all_chars printable (json.replace c) = true.
Proof.
  unfold json.replace.
  repeat (case_match; [reflexivity|]).
  case_match; rewrite ?all_chars_app, ?printable_hex4; reflexivity.
Qed.

Lemma printable_escape c : all_chars printable (json.escape c) = true.
Proof.
  unfold json.escape, json.ESCAPE_ASCII.
  destruct (_ || _) eqn:Hc; [apply printable_replace|].
  apply orb_false_iff in Hc as [_ [Hlow Hupp]%negb_false_iff%andb_true_iff].
  apply N.leb_le in Hlow, Hupp.
  cbn. unfold printable. rewrite N_ascii_embedding by lia.
  rewrite andb_true_r. apply andb_true_iff. split; by apply N.leb_le.
Qed.

Lemma printable_escape_all s : all_chars printable (json.escape_all s) = true.
Proof.
  induction s as [|c s IH]; [done|]. cbn [json.escape_all].
  by rewrite all_chars_app, printable_escape, IH.
Qed.

Lemma printable_string_of_uint d :
  all_chars printable (NilEmpty.string_of_uint d) = true.
Proof. induction d; done. Qed.

(** The encoding of a scalar is made of printable characters of ASCII. *)
Lemma printable_encode_value v :
  all_chars printable (json.encode_value v) = true.
Proof.
  destruct v as [|[|]|z|s]; try done.
  - cbn. destruct (Z.to_int z) as [d|d]; cbn;
      destruct d; try done; apply printable_string_of_uint.
  - cbn. unfold json.encode_basestring_ascii.
    by rewrite !all_chars_app, printable_escape_all.
Qed.

Lemma printable_object_text item :
  all_chars printable_or_newline (object_text item) = true.
Proof.
  assert (forall v, all_chars printable_or_newline (json.encode_value v) = true)
    as Hv.
  { intros v. apply (all_chars_impl printable); [|apply printable_encode_value].
    intros a Ha. unfold printable_or_newline. by rewrite Ha. }
  unfold object_text, member_text. by rewrite !all_chars_app, !Hv.
Qed.

(** X13: the document is plain ASCII, whatever the code points of the names
    and identifiers are: each of its characters is a printable character of
    ASCII (from the space to the tilde) or a newline. *)
Theorem X13_document_is_ascii items :
  all_chars printable_or_newline (accounts_json items) = true.
Proof.
  rewrite accounts_json_layout. destruct items as [|item items]; [done|].
  unfold document_text. rewrite !all_chars_app.
  rewrite all_chars_join; [done|done|].
  apply Forall_fmap, Forall_forall. intros i _. apply printable_object_text.
Qed.

Lemma count_char_app c s t :
  count_char c (s +:+ t) = count_char c s + count_char c t.
Proof.
  induction s as [|a s IH]; [done|].
  rewrite append_String. cbn. rewrite IH. lia.
Qed.

(** A text of printable characters has no newline in it. *)
Lemma count_char_printable s :
  all_chars printable s = true -> count_char "010" s = 0.
Proof.
  induction s as [|a s IH]; [done|]. cbn.
  intros [Ha Hs]%andb_true_iff. rewrite (IH Hs).
  destruct (Ascii.eqb_spec a "010") as [->|]; done.
Qed.

Lemma count_char_object_text item :
  count_char "010" (object_text item) = 3.
Proof.
  unfold object_text, member_text. rewrite !count_char_app.
  by rewrite !(count_char_printable _ (printable_encode_value _)).
Qed.

Lemma count_char_objects item items :
  count_char "010"
    (join (", " +:+ newline +:+ "    ") (object_text <$> item :: items))
  = 3 + 4 * length items.
Proof.
  revert item. induction items as [|item' items IH]; intros item.
  - apply count_char_object_text.
  - change (join ?sep (object_text <$> item :: item' :: items))
      with (object_text item +:+ sep +:+ join sep (object_text <$> item' :: items)).
    rewrite !count_char_app, count_char_object_text, IH. cbn. lia.
Qed.

(** X14: the document of N entries has 4 N + 1 newlines when N is not zero,
    and none when it is: every entry takes four lines, between a first line
    with the opening bracket and a last line with the closing bracket, and
    there is no newline after the closing bracket. *)
Theorem X14_four_lines_per_entry items :
  count_char "010" (accounts_json items)
  = match items with [] => 0 | _ => 4 * length items + 1 end /\
  exists body,
    accounts_json items = "[" +:+ body +:+ "]" /\
    match items with
    | [] => body = EmptyString
    | _ => exists body', body = newline +:+ body' +:+ newline
    end.
Proof.
  rewrite accounts_json_layout. destruct items as [|item items].
  { split; [done|]. by exists EmptyString. }
  unfold document_text. split.
  - rewrite !count_char_app, count_char_objects. cbn. lia.
  - exists (newline
            +:+ ("    " +:+ join (", " +:+ newline +:+ "    ")
                              (object_text <$> item :: items))
            +:+ newline).
    split; [by rewrite !append_assoc|]. by eexists.
Qed.
